(** * A single-producer / single-consumer bounded channel (lib/Channel.hpp)

    Shallow embedding of the ring buffer shared by a [ReceiverChannel] and a
    [SenderChannel], of the two handle classes and of [create_channel],
    followed by the properties of the channel.

    Conventions of the embedding.
    - A method that may suspend its thread or run into undefined behaviour
      returns an [outcome]: [Done] with its result, [Blocks] when the calling
      thread would wait on a semaphore whose counter is zero, [Undefined] for
      a null handle, an array subscript out of range, a division by zero or
      a semaphore released above its maximum.
    - The object behind [std::shared_ptr<Data<T, Size>>] lives in a heap, a
      finite map from addresses to a control block ([use_count]) and the
      [Data]; both handles of a channel hold the same address.
    - Every complete method call is one atomic step; two threads are an
      interleaving of such steps.
    - [T] is any movable type: [moved v] is what is left in an object of
      value [v] once it has been moved from (the identity for [int]), and
      [dflt] is a value-initialised [T]. *)

From stdpp Require Import base gmap list.
From Stdlib Require Import ZArith Lia.

Local Open Scope Z_scope.

(** ** Outcomes *)

Inductive outcome (A : Type) : Type :=
| Done (a : A)
| Blocks
| Undefined.
Arguments Done {A} a.
Arguments Blocks {A}.
Arguments Undefined {A}.

#[global] Instance outcome_ret : MRet outcome := λ A a, Done a.
#[global] Instance outcome_bind : MBind outcome := λ A B f m,
  match m with
  | Done a => f a
  | Blocks => Blocks
  | Undefined => Undefined
  end.

(** ** Machine integers *)

(** [size_t] arithmetic wraps around at 2^64. *)
Definition size_t (z : Z) : Z := z mod 2 ^ 64.

(** [std::numeric_limits<int>::max()] *)
Definition INT_MAX : Z := 2147483647.

Definition DefaultSize : Z := 256.

(** ** std::counting_semaphore<INT_MAX>, as its counter

    The counter is all the state a semaphore has once every call is one
    atomic step. [try_acquire] is taken to succeed whenever the counter is
    positive: the failures without cause that the standard allows an
    implementation are left out. *)

Module counting_semaphore.

Definition max : Z := INT_MAX.

(** [try_acquire]: decrement if positive, never wait. *)
Definition try_acquire (c : Z) : bool * Z :=
  if 0 <? c then (true, c - 1) else (false, c).

(** [acquire]: wait until positive, then decrement. *)
Definition acquire (c : Z) : outcome Z :=
  if 0 <? c then Done (c - 1) else Blocks.

(** [release]: increment; the counter must stay within [max]. *)
Definition release (c : Z) : outcome Z :=
  if c <? max then Done (c + 1) else Undefined.

End counting_semaphore.

(** ** The shared state: struct Data *)

Record Data (T : Type) : Type := mkData {
  open : bool;
  head : Z;
  tail : Z;
  buffer : list T;
  read : Z;
  write : Z
}.
Arguments mkData {T}.
Arguments open {T}.
Arguments head {T}.
Arguments tail {T}.
Arguments buffer {T}.
Arguments read {T}.
Arguments write {T}.

Section Data_ops.
Context {T : Type}.

(** The default member initialisers of [Data<T, Size>]. *)
Definition Data_init (dflt : T) (Size : Z) : Data T :=
  {| open := true; head := 0; tail := 0;
     buffer := replicate (Z.to_nat Size) dflt;
     read := 0; write := Size |}.

Definition set_open (b : bool) (d : Data T) : Data T :=
  mkData b (head d) (tail d) (buffer d) (read d) (write d).
Definition set_head (z : Z) (d : Data T) : Data T :=
  mkData (open d) z (tail d) (buffer d) (read d) (write d).
Definition set_tail (z : Z) (d : Data T) : Data T :=
  mkData (open d) (head d) z (buffer d) (read d) (write d).
Definition set_buffer (b : list T) (d : Data T) : Data T :=
  mkData (open d) (head d) (tail d) b (read d) (write d).
Definition set_read (z : Z) (d : Data T) : Data T :=
  mkData (open d) (head d) (tail d) (buffer d) z (write d).
Definition set_write (z : Z) (d : Data T) : Data T :=
  mkData (open d) (head d) (tail d) (buffer d) (read d) z.

(** [std::array::size] *)
Definition size (b : list T) : Z := Z.of_nat (length b).

(** [std::array::operator[]], undefined out of range. *)
Definition subscript (b : list T) (i : Z) : outcome T :=
  if (0 <=? i) && (i <? size b) then
    match b !! Z.to_nat i with
    | Some v => Done v
    | None => Undefined
    end
  else Undefined.

(** [%] on [size_t], undefined for a zero divisor. *)
Definition rem (a n : Z) : outcome Z :=
  if n =? 0 then Undefined else Done (a mod n).
End Data_ops.

(** ** The heap of shared objects and std::shared_ptr *)

Abbreviation ptr := positive (only parsing).

Record Shared (T : Type) : Type := mkShared {
  use_count : nat;
  obj : Data T
}.
Arguments mkShared {T}.
Arguments use_count {T}.
Arguments obj {T}.

Abbreviation Heap T := (gmap positive (Shared T)) (only parsing).

Section shared_ptr.
Context {T : Type}.

(** [std::make_shared]: a fresh address, one owner. *)
Definition make_shared (d : Data T) (h : Heap T) : ptr * Heap T :=
  let p := fresh (dom h) in
  (p, <[p := mkShared 1 d]> h).

(** Copy construction of a [shared_ptr]. *)
Definition sp_copy (p : option ptr) (h : Heap T) : Heap T :=
  match p with
  | None => h
  | Some l => alter (λ sh, mkShared (S (use_count sh)) (obj sh)) l h
  end.

(** Destruction or reset of a [shared_ptr]: the last owner frees. *)
Definition sp_release (p : option ptr) (h : Heap T) : Heap T :=
  match p with
  | None => h
  | Some l =>
      match h !! l with
      | None => h
      | Some sh =>
          if (use_count sh <=? 1)%nat then delete l h
          else <[l := mkShared (Nat.pred (use_count sh)) (obj sh)]> h
      end
  end.

(** Run a method body on the object behind [internal]; a null
    [internal] is dereferenced all the same. *)
Definition with_internal {A : Type} (p : option ptr)
    (body : Data T → outcome (A * Data T)) (h : Heap T)
    : outcome (A * Heap T) :=
  match p with
  | None => Undefined
  | Some l =>
      match h !! l with
      | None => Undefined
      | Some sh =>
          '(a, d') ← body (obj sh);
          mret (a, <[l := mkShared (use_count sh) d']> h)
      end
  end.
End shared_ptr.

(** ** class ReceiverChannel *)

Module ReceiverChannel.

Record t : Type := mk { internal : option ptr }.

Section methods.
Context {T : Type} (moved : T → T).

(** [explicit ReceiverChannel()] *)
Definition ctor (dflt : T) (Size : Z) (h : Heap T) : t * Heap T :=
  let '(p, h') := make_shared (Data_init dflt Size) h in
  (mk (Some p), h').

(** [ReceiverChannel(ReceiverChannel &&other)]: the new handle, what
    is left of [other], the heap. *)
Definition move_ctor (other : t) (h : Heap T) : t * t * Heap T :=
  let h1 := sp_copy (internal other) h in
  let h2 := sp_release (internal other) h1 in
  (mk (internal other), mk None, h2).

Definition close_body (d : Data T) : outcome (unit * Data T) :=
  Done (tt, set_open false d).

Definition close (this : t) (h : Heap T) : outcome (unit * Heap T) :=
  match internal this with
  | None => Done (tt, h)
  | Some _ => with_internal (internal this) close_body h
  end.

(** [~ReceiverChannel()] *)
Definition dtor (this : t) (h : Heap T) : outcome (unit * Heap T) :=
  '(_, h1) ← close this h;
  mret (tt, sp_release (internal this) h1).

Definition is_open_body (d : Data T) : outcome (bool * Data T) :=
  Done (open d, d).

Definition is_open (this : t) (h : Heap T) : outcome (bool * Heap T) :=
  with_internal (internal this) is_open_body h.

Definition getHead (d : Data T) : outcome (T * Data T) :=
  new_head ← rem (size_t (head d + 1)) (size (buffer d));
  tmp ← subscript (buffer d) (head d);
  let d1 := set_buffer (<[Z.to_nat (head d) := moved tmp]> (buffer d)) d in
  let d2 := set_head new_head d1 in
  Done (tmp, d2).

Definition try_receive_body (d : Data T) : outcome (option T * Data T) :=
  if negb (open d) then Done (None, d)
  else
    let '(ok, r) := counting_semaphore.try_acquire (read d) in
    if negb ok then Done (None, set_read r d)
    else
      '(v, d1) ← getHead (set_read r d);
      Done (Some v, d1).

Definition try_receive (this : t) (h : Heap T)
    : outcome (option T * Heap T) :=
  with_internal (internal this) try_receive_body h.

Definition receive_body (d : Data T) : outcome (T * Data T) :=
  r ← counting_semaphore.acquire (read d);
  '(tmp, d1) ← getHead (set_read r d);
  w ← counting_semaphore.release (write d1);
  Done (tmp, set_write w d1).

Definition receive (this : t) (h : Heap T) : outcome (T * Heap T) :=
  with_internal (internal this) receive_body h.
End methods.

End ReceiverChannel.

(** ** class SenderChannel *)

Module SenderChannel.

Record t : Type := mk { internal : option ptr }.

Section methods.
Context {T : Type}.

(** [SenderChannel(std::shared_ptr<Data<T, Size>> ptr)]: the argument
    is copied into the parameter, the parameter into [internal], and
    the parameter is destroyed. *)
Definition ctor (arg : option ptr) (h : Heap T) : t * Heap T :=
  let h1 := sp_copy arg h in
  let h2 := sp_copy arg h1 in
  let h3 := sp_release arg h2 in
  (mk arg, h3).

(** [SenderChannel(SenderChannel &&other)] *)
Definition move_ctor (other : t) (h : Heap T) : t * t * Heap T :=
  let h1 := sp_copy (internal other) h in
  let h2 := sp_release (internal other) h1 in
  (mk (internal other), mk None, h2).

Definition is_open_body (d : Data T) : outcome (bool * Data T) :=
  Done (open d, d).

Definition is_open (this : t) (h : Heap T) : outcome (bool * Heap T) :=
  with_internal (internal this) is_open_body h.

Definition close_body (d : Data T) : outcome (unit * Data T) :=
  Done (tt, set_open false d).

Definition close (this : t) (h : Heap T) : outcome (unit * Heap T) :=
  match internal this with
  | None => Done (tt, h)
  | Some _ => with_internal (internal this) close_body h
  end.

(** [~SenderChannel()] *)
Definition dtor (this : t) (h : Heap T) : outcome (unit * Heap T) :=
  '(_, h1) ← close this h;
  mret (tt, sp_release (internal this) h1).

Definition writeTail (data : T) (d : Data T) : outcome (Data T) :=
  _ ← subscript (buffer d) (tail d);
  let d1 := set_buffer (<[Z.to_nat (tail d) := data]> (buffer d)) d in
  new_tail ← rem (size_t (tail d1 + 1)) (size (buffer d1));
  Done (set_tail new_tail d1).

Definition try_send_body (data : T) (d : Data T)
    : outcome (bool * Data T) :=
  if negb (open d) then Done (false, d)
  else
    let '(ok, w) := counting_semaphore.try_acquire (write d) in
    if negb ok then Done (false, set_write w d)
    else
      d1 ← writeTail data (set_write w d);
      r ← counting_semaphore.release (read d1);
      Done (true, set_read r d1).

Definition try_send (this : t) (data : T) (h : Heap T)
    : outcome (bool * Heap T) :=
  with_internal (internal this) (try_send_body data) h.

Definition send_body (data : T) (d : Data T) : outcome (unit * Data T) :=
  w ← counting_semaphore.acquire (write d);
  d1 ← writeTail data (set_write w d);
  r ← counting_semaphore.release (read d1);
  Done (tt, set_read r d1).

Definition send (this : t) (data : T) (h : Heap T)
    : outcome (unit * Heap T) :=
  with_internal (internal this) (send_body data) h.
End methods.

End SenderChannel.

(** ** create_channel *)

Section create.
Context {T : Type}.

(** [rx] is built on a fresh [Data], [tx] on a copy of [rx.internal];
    both are moved into the returned pair and the two locals, by then
    spent, are destroyed in reverse order of construction. *)
Definition create_channel (dflt : T) (Size : Z) (h : Heap T)
    : outcome (ReceiverChannel.t * SenderChannel.t * Heap T) :=
  let '(rx, h1) := ReceiverChannel.ctor dflt Size h in
  let '(tx, h2) := SenderChannel.ctor (ReceiverChannel.internal rx) h1 in
  let '(rx', rx_spent, h3) := ReceiverChannel.move_ctor (T := T) rx h2 in
  let '(tx', tx_spent, h4) := SenderChannel.move_ctor tx h3 in
  '(_, h5) ← SenderChannel.dtor tx_spent h4;
  '(_, h6) ← ReceiverChannel.dtor rx_spent h5;
  Done (rx', tx', h6).
End create.

(** ** Sequences of method calls on the two handles of a channel *)

Inductive op (T : Type) : Type :=
| Send (v : T)
| TrySend (v : T)
| Receive
| TryReceive
| CloseRx
| CloseTx.
Arguments Send {T} v.
Arguments TrySend {T} v.
Arguments Receive {T}.
Arguments TryReceive {T}.
Arguments CloseRx {T}.
Arguments CloseTx {T}.

(** What a completed call reports to its caller. *)
Inductive event (T : Type) : Type :=
| Sent (v : T)
| Refused (v : T)
| Got (v : T)
| Nothing
| Closed.
Arguments Sent {T} v.
Arguments Refused {T} v.
Arguments Got {T} v.
Arguments Nothing {T}.
Arguments Closed {T}.

Section runs.
Context {T : Type} (moved : T → T).

Definition is_close (o : op T) : bool :=
  match o with
  | CloseRx | CloseTx => true
  | _ => false
  end.

(** One call on the receiver [rx] or on the sender [tx]. *)
Definition step (rx : ReceiverChannel.t) (tx : SenderChannel.t)
    (o : op T) (h : Heap T) : outcome (event T * Heap T) :=
  match o with
  | Send v =>
      '(_, h1) ← SenderChannel.send tx v h; Done (Sent v, h1)
  | TrySend v =>
      '(b, h1) ← SenderChannel.try_send tx v h;
      Done (if b : bool then Sent v else Refused v, h1)
  | Receive =>
      '(v, h1) ← ReceiverChannel.receive moved rx h; Done (Got v, h1)
  | TryReceive =>
      '(r, h1) ← ReceiverChannel.try_receive moved rx h;
      Done (match r with Some v => Got v | None => Nothing end, h1)
  | CloseRx =>
      '(_, h1) ← ReceiverChannel.close rx h; Done (Closed, h1)
  | CloseTx =>
      '(_, h1) ← SenderChannel.close tx h; Done (Closed, h1)
  end.

(** The calls of [ops] one after the other; the run stops at the first
    call that does not complete. *)
Fixpoint run (rx : ReceiverChannel.t) (tx : SenderChannel.t)
    (ops : list (op T)) (h : Heap T) : outcome (list (event T) * Heap T) :=
  match ops with
  | [] => Done ([], h)
  | o :: ops' =>
      '(e, h1) ← step rx tx o h;
      '(es, h2) ← run rx tx ops' h1;
      Done (e :: es, h2)
  end.

(** The values enqueued and the values delivered, in order. *)
Definition sent (es : list (event T)) : list T :=
  omap (λ e, match e with Sent v => Some v | _ => None end) es.

Definition received (es : list (event T)) : list T :=
  omap (λ e, match e with Got v => Some v | _ => None end) es.

(** The [Data] a handle's [internal] points to. *)
Definition shared_state (p : option ptr) (h : Heap T) : option (Data T) :=
  l ← p; sh ← h !! l; Some (obj sh).

(** The same calls, on the [Data] itself. *)
Definition step_body (o : op T) (d : Data T) : outcome (event T * Data T) :=
  match o with
  | Send v =>
      '(_, d1) ← SenderChannel.send_body v d; Done (Sent v, d1)
  | TrySend v =>
      '(b, d1) ← SenderChannel.try_send_body v d;
      Done (if b : bool then Sent v else Refused v, d1)
  | Receive =>
      '(v, d1) ← ReceiverChannel.receive_body moved d; Done (Got v, d1)
  | TryReceive =>
      '(r, d1) ← ReceiverChannel.try_receive_body moved d;
      Done (match r with Some v => Got v | None => Nothing end, d1)
  | CloseRx =>
      '(_, d1) ← ReceiverChannel.close_body d; Done (Closed, d1)
  | CloseTx =>
      '(_, d1) ← SenderChannel.close_body d; Done (Closed, d1)
  end.

Fixpoint run_body (ops : list (op T)) (d : Data T)
    : outcome (list (event T) * Data T) :=
  match ops with
  | [] => Done ([], d)
  | o :: ops' =>
      '(e, d1) ← step_body o d;
      '(es, d2) ← run_body ops' d1;
      Done (e :: es, d2)
  end.
End runs.

(** ** Vocabulary of the properties *)

Section vocabulary.
Context {T : Type} (moved : T → T).

(** The state after a value has been enqueued: one writable slot
    claimed, the value stored at [tail], [tail] advanced, one readable
    slot released. *)
Definition enqueued (v : T) (d : Data T) : Data T :=
  {| open := open d;
     head := head d;
     tail := (tail d + 1) mod size (buffer d);
     buffer := <[Z.to_nat (tail d) := v]> (buffer d);
     read := read d + 1;
     write := write d - 1 |}.

(** The state after [getHead] has taken [v] on a claimed readable slot:
    the slot at [head] is moved from, [head] is advanced. The writable
    counter becomes [w]. *)
Definition dequeued (v : T) (w : Z) (d : Data T) : Data T :=
  {| open := open d;
     head := (head d + 1) mod size (buffer d);
     tail := tail d;
     buffer := <[Z.to_nat (head d) := moved v]> (buffer d);
     read := read d - 1;
     write := w |}.

(** A state whose indices and counters fit the buffer. *)
Definition in_bounds (d : Data T) : Prop :=
  0 ≤ head d < size (buffer d) ∧ 0 ≤ tail d < size (buffer d) ∧
  size (buffer d) ≤ INT_MAX ∧
  0 ≤ read d ∧ 0 ≤ write d ∧ read d + write d ≤ size (buffer d).

(** [ring Size d q]: the state [d] of a channel of capacity [Size] holds
    the queue [q], oldest value first, in the [read d] slots that start
    at [head d]. *)
Definition ring (Size : Z) (d : Data T) (q : list T) : Prop :=
  size (buffer d) = Size ∧
  0 ≤ head d < Size ∧
  tail d = (head d + read d) mod Size ∧
  read d = Z.of_nat (length q) ∧
  0 ≤ write d ∧
  read d + write d ≤ Size ∧
  ∀ (k : nat) (v : T), q !! k = Some v →
    buffer d !! Z.to_nat ((head d + Z.of_nat k) mod Size) = Some v.

(** What a call that started on a ring holding [q] may end in: never
    undefined behaviour, and when it completes with [es] on the state
    [d'], a ring again, whose queue is [q] with the values of [es]
    enqueued at the back and taken from the front. *)
Definition ring_after (Size : Z) (d : Data T) (q : list T) {E : Type}
    (evs : E → list (event T)) (r : outcome (E * Data T)) : Prop :=
  match r with
  | Done (e, d') =>
      ∃ q', ring Size d' q' ∧ q ++ sent (evs e) = received (evs e) ++ q' ∧
            (open d = false → open d' = false)
  | Blocks => True
  | Undefined => False
  end.

(** Both handles hold the address [p]. *)
Definition bound (p : ptr) (rx : ReceiverChannel.t) (tx : SenderChannel.t)
    : Prop :=
  ReceiverChannel.internal rx = Some p ∧ SenderChannel.internal tx = Some p.

(** The heap [h] with the [Data] at [p] replaced. *)
Definition store (p : ptr) (d : Data T) (h : Heap T) : Heap T :=
  match h !! p with
  | Some sh => <[p := mkShared (use_count sh) d]> h
  | None => h
  end.
End vocabulary.

(** [int] values are left as they are by a move. *)
Definition moved_int (v : Z) : Z := v.

(** ** A channel of capacity 2, for running the theorems *)

Module Demo.

(** What [create_channel<int, 2>()] returns in an empty heap. *)
Definition rx : ReceiverChannel.t := ReceiverChannel.mk (Some 1%positive).
Definition tx : SenderChannel.t := SenderChannel.mk (Some 1%positive).

(** The heap that holds one channel state, with both handles alive. *)
Definition heap_of (d : Data Z) : gmap positive (Shared Z) :=
  <[1%positive := mkShared 2 d]> ∅.

Definition fresh_state : Data Z := mkData true 0 0 [0; 0] 0 2.

(** After [try_send(7)]; [try_receive()]: empty, one writable slot. *)
Definition after_round : Data Z := mkData true 1 1 [7; 0] 0 1.

(** After [try_send(7)]: one value queued. *)
Definition after_send : Data Z := mkData true 0 1 [7; 0] 1 1.

(** A longer exchange, across the end of the buffer. *)
Definition exchange : list (op Z) :=
  [Send 7; TrySend 8; TrySend 9; Receive; Send 9; TryReceive; Receive].

Definition after_exchange : Data Z := mkData true 1 1 [9; 8] 0 1.

(** After [try_send(7)]; [rx.close()]; [send(8)]. *)
Definition after_close : Data Z := mkData false 0 0 [7; 8] 2 0.

(** And after one more [receive()]. *)
Definition after_close_receive : Data Z := mkData false 1 0 [7; 8] 1 1.

End Demo.

(** ** More runs on small channels *)

Module Demo2.

(** Two round trips through [try_send] and [try_receive] on a channel of
    capacity 2, and the state they end in. *)
Definition wedge_ops : list (op Z) :=
  [TrySend 1; TryReceive; TrySend 2; TryReceive].

Definition wedged : Data Z := mkData true 0 0 [1; 2] 0 0.

(** Further calls on that state. *)
Definition later_ops : list (op Z) := [TrySend 3; CloseTx; TryReceive].

Definition wedged_closed : Data Z := mkData false 0 0 [1; 2] 0 0.

(** A producer of three values and a consumer of three, interleaved. *)
Definition pipeline : list (op Z) :=
  [Send 7; Send 8; Receive; Send 9; Receive; Receive].

(** A producer that runs ahead of a channel of capacity 2. *)
Definition overfull : list (op Z) := [Send 7; Send 8; Send 9].

(** A second channel, created in a heap that holds a first one. *)
Definition rx2 : ReceiverChannel.t := ReceiverChannel.mk (Some 2%positive).
Definition tx2 : SenderChannel.t := SenderChannel.mk (Some 2%positive).

Definition beside_first (d : Data Z) : gmap positive (Shared Z) :=
  <[2%positive := mkShared 2 d]> (Demo.heap_of Demo.after_send).

(** The state of a channel of capacity 0. *)
Definition no_slots : Data Z := mkData true 0 0 [] 0 0.

End Demo2.

(** ** Histories *)

Section histories.
Context {T : Type}.

(** The number of [try_receive] calls of a history that returned a
    value. *)
Fixpoint lost (ops : list (op T)) (es : list (event T)) : Z :=
  match ops, es with
  | TryReceive :: ops', Got _ :: es' => 1 + lost ops' es'
  | _ :: ops', _ :: es' => lost ops' es'
  | _, _ => 0
  end.

(** The values enqueued and not yet delivered. *)
Definition pending (es : list (event T)) : Z :=
  Z.of_nat (length (sent es)) - Z.of_nat (length (received es)).

(** The calls that wait: [send] and [receive]. *)
Definition is_blocking (o : op T) : bool :=
  match o with
  | Send _ | Receive => true
  | _ => false
  end.

(** The values a program of calls sends, and how many it receives. *)
Definition sends (ops : list (op T)) : list T :=
  omap (λ o, match o with Send v => Some v | _ => None end) ops.

Definition receives (ops : list (op T)) : nat :=
  length (omap (λ o, match o with Receive => Some o | _ => None end) ops).

(** [fits Size n ops]: started with [n] values in a buffer of [Size]
    slots, no [send] of [ops] finds the buffer full and no [receive]
    finds it empty. *)
Fixpoint fits (Size n : Z) (ops : list (op T)) : bool :=
  match ops with
  | [] => true
  | Send _ :: ops' => (n <? Size) && fits Size (n + 1) ops'
  | Receive :: ops' => (0 <? n) && fits Size (n - 1) ops'
  | _ :: ops' => false
  end.
End histories.

(** * Proofs *)

(** ** Arithmetic and array subscripts *)

Lemma mod_add_inj (n h a b : Z) :
  0 ≤ a < n → 0 ≤ b < n → (h + a) mod n = (h + b) mod n → a = b.
Proof.
  intros Ha Hb E.
  assert (Hn : 0 < n) by lia.
  pose proof (Z.div_mod (h + a) n ltac:(lia)) as Da.
  pose proof (Z.div_mod (h + b) n ltac:(lia)) as Db.
  rewrite E in Da.
  assert (a - b = n * ((h + a) / n - (h + b) / n)) as Hd by lia.
  assert ((h + a) / n - (h + b) / n = 0) by nia.
  lia.
Qed.

Lemma size_t_small (z : Z) : 0 ≤ z ≤ INT_MAX → size_t z = z.
Proof. intros H. unfold size_t. apply Z.mod_small. unfold INT_MAX in H. lia. Qed.

Section body_lemmas.
Context {T : Type} (moved : T → T).

Lemma subscript_Done (b : list T) (i : Z) (v : T) :
  0 ≤ i → b !! Z.to_nat i = Some v → subscript b i = Done v.
Proof.
  intros Hi Hv. unfold subscript, size.
  apply lookup_lt_Some in Hv as Hlt.
  assert ((0 <=? i) = true) as -> by lia.
  assert ((i <? Z.of_nat (length b)) = true) as -> by lia.
  simpl. by rewrite Hv.
Qed.

Lemma subscript_in_range (b : list T) (i : Z) :
  0 ≤ i < size b → ∃ v, b !! Z.to_nat i = Some v ∧ subscript b i = Done v.
Proof.
  intros Hi. unfold size in Hi.
  destruct (lookup_lt_is_Some_2 b (Z.to_nat i)) as [v Hv]; [lia|].
  exists v. split; [done|]. apply subscript_Done; [lia|done].
Qed.

Lemma subscript_Undefined (b : list T) (i : Z) :
  ¬ (0 ≤ i < size b) → subscript b i = Undefined.
Proof.
  intros Hi. unfold subscript.
  destruct (0 <=? i) eqn:E1; destruct (i <? size b) eqn:E2; simpl; try done.
  lia.
Qed.
End body_lemmas.

(** ** What one method call does to the shared state *)

Section post_states.
Context {T : Type} (moved : T → T).

Lemma writeTail_spec (v : T) (d : Data T) :
  0 ≤ tail d < size (buffer d) → size (buffer d) ≤ INT_MAX →
  SenderChannel.writeTail v d =
    Done (set_tail ((tail d + 1) mod size (buffer d))
           (set_buffer (<[Z.to_nat (tail d) := v]> (buffer d)) d)).
Proof.
  intros Ht Hmax. unfold SenderChannel.writeTail.
  destruct (subscript_in_range (buffer d) (tail d) Ht) as (x & _ & ->).
  cbn. unfold rem, size in *. rewrite length_insert.
  destruct (Z.eqb_spec (Z.of_nat (length (buffer d))) 0) as [E|_]; [lia|].
  rewrite size_t_small by lia. done.
Qed.

Lemma getHead_spec (v : T) (d : Data T) :
  0 ≤ head d < size (buffer d) → size (buffer d) ≤ INT_MAX →
  buffer d !! Z.to_nat (head d) = Some v →
  ReceiverChannel.getHead moved d =
    Done (v, set_head ((head d + 1) mod size (buffer d))
              (set_buffer (<[Z.to_nat (head d) := moved v]> (buffer d)) d)).
Proof.
  intros Hh Hmax Hv. unfold ReceiverChannel.getHead, rem.
  destruct (Z.eqb_spec (size (buffer d)) 0) as [E|_]; [lia|].
  cbn. rewrite (subscript_Done _ _ v) by (done || lia).
  cbn. rewrite size_t_small by lia. done.
Qed.

Lemma try_send_body_refuses (v : T) (d : Data T) :
  open d = false ∨ write d ≤ 0 →
  SenderChannel.try_send_body v d = Done (false, d).
Proof.
  intros H. unfold SenderChannel.try_send_body.
  destruct (open d) eqn:Ho; cbn; [|done].
  destruct H as [?|Hw]; [done|].
  unfold counting_semaphore.try_acquire.
  destruct (Z.ltb_spec 0 (write d)); [lia|]. cbn.
  by destruct d.
Qed.

Lemma try_send_body_accepts (v : T) (d : Data T) :
  in_bounds d → open d = true → 0 < write d →
  SenderChannel.try_send_body v d = Done (true, enqueued v d).
Proof.
  intros (Hh & Ht & Hmax & Hr & Hw & Hsum) Ho Hpos.
  unfold SenderChannel.try_send_body. rewrite Ho. cbn.
  unfold counting_semaphore.try_acquire.
  destruct (Z.ltb_spec 0 (write d)); [|lia]. cbn.
  rewrite writeTail_spec by done. cbn.
  unfold counting_semaphore.release, counting_semaphore.max.
  destruct (Z.ltb_spec (read d) INT_MAX); [|lia]. done.
Qed.

Lemma send_body_blocks (v : T) (d : Data T) :
  write d ≤ 0 → SenderChannel.send_body v d = Blocks.
Proof.
  intros Hw. unfold SenderChannel.send_body, counting_semaphore.acquire.
  by destruct (Z.ltb_spec 0 (write d)); [lia|].
Qed.

Lemma send_body_accepts (v : T) (d : Data T) :
  in_bounds d → 0 < write d →
  SenderChannel.send_body v d = Done (tt, enqueued v d).
Proof.
  intros (Hh & Ht & Hmax & Hr & Hw & Hsum) Hpos.
  unfold SenderChannel.send_body, counting_semaphore.acquire.
  destruct (Z.ltb_spec 0 (write d)); [|lia]. cbn.
  rewrite writeTail_spec by done. cbn.
  unfold counting_semaphore.release, counting_semaphore.max.
  destruct (Z.ltb_spec (read d) INT_MAX); [|lia]. done.
Qed.

Lemma try_receive_body_empty (d : Data T) :
  open d = false ∨ read d ≤ 0 →
  ReceiverChannel.try_receive_body moved d = Done (None, d).
Proof.
  intros H. unfold ReceiverChannel.try_receive_body.
  destruct (open d) eqn:Ho; cbn; [|done].
  destruct H as [?|Hw]; [done|].
  unfold counting_semaphore.try_acquire.
  destruct (Z.ltb_spec 0 (read d)); [lia|]. cbn.
  by destruct d.
Qed.

(** [try_receive] leaves the writable counter as it finds it. *)
Lemma try_receive_body_takes (v : T) (d : Data T) :
  in_bounds d → open d = true → 0 < read d →
  buffer d !! Z.to_nat (head d) = Some v →
  ReceiverChannel.try_receive_body moved d =
    Done (Some v, dequeued moved v (write d) d).
Proof.
  intros (Hh & Ht & Hmax & Hr & Hw & Hsum) Ho Hpos Hv.
  unfold ReceiverChannel.try_receive_body. rewrite Ho. cbn.
  unfold counting_semaphore.try_acquire.
  destruct (Z.ltb_spec 0 (read d)); [|lia]. cbn.
  rewrite (getHead_spec v) by done. done.
Qed.

Lemma receive_body_blocks (d : Data T) :
  read d ≤ 0 → ReceiverChannel.receive_body moved d = Blocks.
Proof.
  intros Hw. unfold ReceiverChannel.receive_body, counting_semaphore.acquire.
  by destruct (Z.ltb_spec 0 (read d)); [lia|].
Qed.

Lemma receive_body_takes (v : T) (d : Data T) :
  in_bounds d → 0 < read d →
  buffer d !! Z.to_nat (head d) = Some v →
  ReceiverChannel.receive_body moved d =
    Done (v, dequeued moved v (write d + 1) d).
Proof.
  intros (Hh & Ht & Hmax & Hr & Hw & Hsum) Hpos Hv.
  unfold ReceiverChannel.receive_body, counting_semaphore.acquire.
  destruct (Z.ltb_spec 0 (read d)); [|lia]. cbn.
  rewrite (getHead_spec v) by done. cbn.
  unfold counting_semaphore.release, counting_semaphore.max.
  destruct (Z.ltb_spec (write d) INT_MAX); [|lia]. done.
Qed.
End post_states.

(** ** The ring invariant *)

Section ring.
Context {T : Type} (moved : T → T) (Size : Z).
Hypothesis Size_pos : 1 ≤ Size.
Hypothesis Size_int : Size ≤ INT_MAX.

Lemma ring_in_bounds (d : Data T) (q : list T) : ring Size d q → in_bounds d.
Proof using Size_pos Size_int.
  intros (Hs & Hh & Ht & Hr & Hw & Hsum & _). unfold in_bounds.
  rewrite Hs, Ht.
  pose proof (Z.mod_pos_bound (head d + read d) Size). lia.
Qed.

Lemma ring_init (dflt : T) : ring Size (Data_init dflt Size) [].
Proof using Size_pos.
  unfold ring, Data_init, size; cbn.
  rewrite length_replicate, Z.mod_0_l by lia.
  repeat split; try lia. intros k v Hk. done.
Qed.

Lemma ring_head (d : Data T) (v : T) (q : list T) :
  ring Size d (v :: q) → buffer d !! Z.to_nat (head d) = Some v.
Proof using Size_pos.
  intros (Hs & Hh & Ht & Hr & Hw & Hsum & Hq).
  specialize (Hq 0%nat v eq_refl).
  rewrite Z.add_0_r, Z.mod_small in Hq by lia. done.
Qed.

Lemma ring_empty_head_tail (d : Data T) : ring Size d [] → tail d = head d.
Proof using Size_pos.
  intros (Hs & Hh & Ht & Hr & _). cbn in Hr.
  rewrite Ht, Hr, Z.add_0_r, Z.mod_small; lia.
Qed.

Lemma ring_enqueued (d : Data T) (q : list T) (v : T) :
  ring Size d q → 0 < write d → ring Size (enqueued v d) (q ++ [v]).
Proof using Size_pos.
  intros (Hs & Hh & Ht & Hr & Hw & Hsum & Hq) Hpos.
  assert (0 ≤ tail d < Size) as Htb.
  { rewrite Ht. apply Z.mod_pos_bound. lia. }
  unfold ring, enqueued, size in *; cbn.
  rewrite length_insert, length_app, Hs. cbn.
  repeat split; try lia.
  - rewrite Ht, Z.add_mod_idemp_l by lia. f_equal. lia.
  - intros k x Hk.
    destruct (decide (k < length q)%nat) as [Hlt|Hge].
    + rewrite lookup_app_l in Hk by done.
      rewrite list_lookup_insert_ne; [by apply Hq|].
      intros E. apply Z2Nat.inj in E; [| lia |].
      * rewrite Ht in E. apply mod_add_inj in E; lia.
      * apply Z.mod_pos_bound. lia.
    + rewrite lookup_app_r in Hk by lia.
      apply list_lookup_singleton_Some in Hk as [Hk0 <-].
      assert (Z.of_nat k = read d) as -> by lia.
      rewrite <- Ht. apply list_lookup_insert_eq. lia.
Qed.

Lemma ring_dequeued (d : Data T) (q : list T) (v : T) (w : Z) :
  ring Size d (v :: q) → 0 ≤ w → read d - 1 + w ≤ Size →
  ring Size (dequeued moved v w d) q.
Proof using Size_pos.
  intros (Hs & Hh & Ht & Hr & Hw & Hsum & Hq) Hw0 Hwsum.
  unfold ring, dequeued, size in *; cbn in *.
  rewrite length_insert, Hs.
  assert (0 ≤ (head d + 1) mod Size < Size) by (apply Z.mod_pos_bound; lia).
  repeat split; try lia.
  - rewrite Ht, Z.add_mod_idemp_l by lia. f_equal. lia.
  - intros k x Hk.
    apply lookup_lt_Some in Hk as Hlt.
    rewrite Z.add_mod_idemp_l by lia.
    rewrite list_lookup_insert_ne.
    + specialize (Hq (S k) x Hk).
      replace (head d + 1 + Z.of_nat k) with (head d + Z.of_nat (S k)) by lia.
      done.
    + intros E. apply Z2Nat.inj in E; [| lia | apply Z.mod_pos_bound; lia].
      rewrite <- (Z.mod_small (head d) Size) in E at 1 by lia.
      rewrite <- (Z.add_0_r (head d)) in E at 1.
      rewrite <- Z.add_assoc in E.
      apply mod_add_inj in E; lia.
Qed.

(** Closing touches the flag only. *)
Lemma ring_set_open (b : bool) (d : Data T) (q : list T) :
  ring Size d q → ring Size (set_open b d) q.
Proof. done. Qed.
End ring.

(** ** Calls preserve the ring, in order of arrival *)

Section ring_runs.
Context {T : Type} (moved : T → T) (Size : Z).
Hypothesis Size_pos : 1 ≤ Size.
Hypothesis Size_int : Size ≤ INT_MAX.

Lemma step_body_ring (o : op T) (d : Data T) (q : list T) :
  ring Size d q → ring_after Size d q (λ e, [e]) (step_body moved o d).
Proof using Size_pos Size_int.
  intros Hring.
  pose proof (ring_in_bounds Size Size_pos Size_int d q Hring) as Hb.
  pose proof Hring as (Hs & Hh & Ht & Hr & Hw & Hsum & Hq).
  destruct o as [v|v| | | | ]; cbn.
  - destruct (decide (0 < write d)) as [Hpos|Hz].
    + rewrite send_body_accepts by done. cbn.
      exists (q ++ [v]). split; [by apply ring_enqueued|]. done.
    + by rewrite send_body_blocks by lia.
  - destruct (open d) eqn:Ho; [destruct (decide (0 < write d)) as [Hpos|Hz]|].
    + rewrite try_send_body_accepts by done. cbn.
      exists (q ++ [v]). split; [by apply ring_enqueued|]. done.
    + rewrite try_send_body_refuses by (right; lia). cbn.
      exists q. by rewrite !app_nil_r.
    + rewrite try_send_body_refuses by (by left). cbn.
      exists q. by rewrite !app_nil_r.
  - destruct q as [|v q].
    + by rewrite receive_body_blocks by (cbn in Hr; lia).
    + cbn in Hr.
      rewrite (receive_body_takes moved v)
        by (done || lia || by eapply ring_head).
      cbn. exists q. split; [|by rewrite app_nil_r].
      apply (ring_dequeued moved Size Size_pos d q v); [done|lia|lia].
  - destruct (open d) eqn:Ho; [destruct q as [|v q]|].
    + rewrite try_receive_body_empty by (right; cbn in Hr; lia). cbn.
      by exists [].
    + cbn in Hr.
      rewrite (try_receive_body_takes moved v)
        by (done || lia || by eapply ring_head).
      cbn. exists q. split; [|by rewrite app_nil_r].
      apply (ring_dequeued moved Size Size_pos d q v); [done|lia|lia].
    + rewrite try_receive_body_empty by (by left). cbn.
      exists q. by rewrite !app_nil_r.
  - exists q. by rewrite !app_nil_r.
  - exists q. by rewrite !app_nil_r.
Qed.

Lemma sent_cons (e : event T) (es : list (event T)) :
  sent (e :: es) = sent [e] ++ sent es.
Proof. by destruct e. Qed.

Lemma received_cons (e : event T) (es : list (event T)) :
  received (e :: es) = received [e] ++ received es.
Proof. by destruct e. Qed.

Lemma run_body_ring (ops : list (op T)) (d : Data T) (q : list T) :
  ring Size d q → ring_after Size d q id (run_body moved ops d).
Proof using Size_pos Size_int.
  revert d q. induction ops as [|o ops IH]; intros d q Hring; cbn.
  - exists q. by rewrite !app_nil_r.
  - pose proof (step_body_ring o d q Hring) as Hstep.
    destruct (step_body moved o d) as [[e d1]| |]; cbn in *; [|done|done].
    destruct Hstep as (q1 & Hring1 & Hq1 & Hcl1).
    specialize (IH d1 q1 Hring1).
    destruct (run_body moved ops d1) as [[es d2]| |]; cbn in *; [|done|done].
    destruct IH as (q2 & Hring2 & Hq2 & Hcl2).
    exists q2. split; [done|]. split; [|by auto].
    change (q ++ sent (e :: es) = received (e :: es) ++ q2).
    change (q ++ sent [e] = received [e] ++ q1) in Hq1.
    change (q1 ++ sent es = received es ++ q2) in Hq2.
    rewrite sent_cons, received_cons, app_assoc, Hq1.
    rewrite <- !app_assoc. by rewrite Hq2.
Qed.
End ring_runs.

(** ** From the shared state to the heap and the handles *)

Section heap.
Context {T : Type} (moved : T → T).

Lemma with_internal_Some {A : Type} (p : ptr)
    (body : Data T → outcome (A * Data T)) (h : Heap T) (sh : Shared T) :
  h !! p = Some sh →
  with_internal (Some p) body h =
    ('(a, d') ← body (obj sh); Done (a, store p d' h)).
Proof.
  intros Hp. unfold with_internal, store. rewrite Hp.
  by destruct (body (obj sh)) as [[a d']| |].
Qed.

Lemma store_same (p : ptr) (h : Heap T) (sh : Shared T) :
  h !! p = Some sh → store p (obj sh) h = h.
Proof.
  intros Hp. unfold store. rewrite Hp. apply insert_id.
  by destruct sh.
Qed.

Lemma store_store (p : ptr) (d1 d2 : Data T) (h : Heap T) :
  store p d2 (store p d1 h) = store p d2 h.
Proof.
  unfold store. destruct (h !! p) as [sh|] eqn:Hp.
  - rewrite lookup_insert_eq. cbn. by rewrite insert_insert_eq.
  - by rewrite Hp.
Qed.

Lemma lookup_store (p : ptr) (d : Data T) (h : Heap T) (sh : Shared T) :
  h !! p = Some sh → store p d h !! p = Some (mkShared (use_count sh) d).
Proof. intros Hp. unfold store. rewrite Hp. apply lookup_insert_eq. Qed.

Lemma shared_state_store (p : ptr) (d : Data T) (h : Heap T) :
  is_Some (h !! p) → shared_state (Some p) (store p d h) = Some d.
Proof.
  intros [sh Hp]. unfold shared_state. cbn.
  by rewrite (lookup_store p d h sh).
Qed.

Lemma step_bound (p : ptr) rx tx (o : op T) (h : Heap T) (sh : Shared T) :
  bound p rx tx → h !! p = Some sh →
  step moved rx tx o h =
    ('(e, d') ← step_body moved o (obj sh); Done (e, store p d' h)).
Proof.
  intros [Hrx Htx] Hp.
  destruct o; cbn;
    unfold SenderChannel.send, SenderChannel.try_send, SenderChannel.close,
      ReceiverChannel.receive, ReceiverChannel.try_receive,
      ReceiverChannel.close;
    rewrite ?Hrx, ?Htx, (with_internal_Some p _ h sh) by done.
  - by destruct (SenderChannel.send_body v (obj sh)) as [[[] d']| |].
  - by destruct (SenderChannel.try_send_body v (obj sh)) as [[b d']| |].
  - by destruct (ReceiverChannel.receive_body moved (obj sh)) as [[b d']| |].
  - by destruct (ReceiverChannel.try_receive_body moved (obj sh))
      as [[b d']| |].
  - done.
  - done.
Qed.

Lemma run_bound (p : ptr) rx tx (ops : list (op T)) (h : Heap T)
    (sh : Shared T) :
  bound p rx tx → h !! p = Some sh →
  run moved rx tx ops h =
    ('(es, d') ← run_body moved ops (obj sh); Done (es, store p d' h)).
Proof.
  intros Hb. revert h sh. induction ops as [|o ops IH]; intros h sh Hp; cbn.
  - by rewrite store_same.
  - rewrite (step_bound p rx tx o h sh) by done.
    destruct (step_body moved o (obj sh)) as [[e d1]| |]; cbn; [|done|done].
    rewrite (IH _ _ (lookup_store p d1 h sh Hp)). cbn.
    destruct (run_body moved ops d1) as [[es d2]| |]; cbn; [|done|done].
    by rewrite store_store.
Qed.
End heap.

(** ** Ownership: copies, releases, moves and the factory *)

Section ownership.
Context {T : Type}.

Lemma sp_copy_Some (p : ptr) (h : Heap T) (sh : Shared T) :
  h !! p = Some sh →
  sp_copy (Some p) h = <[p := mkShared (S (use_count sh)) (obj sh)]> h.
Proof.
  intros Hp. unfold sp_copy. apply map_eq. intros i.
  destruct (decide (i = p)) as [->|Hne].
  - by rewrite lookup_alter_eq, lookup_insert_eq, Hp.
  - by rewrite lookup_alter_ne, lookup_insert_ne.
Qed.

(** A copy followed by the release of one owner leaves the heap as it
    was. *)
Lemma sp_copy_release (p : ptr) (h : Heap T) (sh : Shared T) :
  h !! p = Some sh → (1 ≤ use_count sh)%nat →
  sp_release (Some p) (sp_copy (Some p) h) = h.
Proof.
  intros Hp Hc. rewrite (sp_copy_Some p h sh Hp). unfold sp_release.
  rewrite lookup_insert_eq. cbn [use_count obj].
  destruct (Nat.leb_spec (S (use_count sh)) 1); [lia|].
  rewrite insert_insert_eq. apply insert_id. by destruct sh.
Qed.

Lemma rx_move_ctor_spec (p : ptr) (rx : ReceiverChannel.t) (h : Heap T)
    (sh : Shared T) :
  ReceiverChannel.internal rx = Some p →
  h !! p = Some sh → (1 ≤ use_count sh)%nat →
  ReceiverChannel.move_ctor rx h =
    (ReceiverChannel.mk (Some p), ReceiverChannel.mk None, h).
Proof.
  intros Hrx Hp Hc. unfold ReceiverChannel.move_ctor.
  by rewrite Hrx, (sp_copy_release p h sh).
Qed.

Lemma tx_move_ctor_spec (p : ptr) (tx : SenderChannel.t) (h : Heap T)
    (sh : Shared T) :
  SenderChannel.internal tx = Some p →
  h !! p = Some sh → (1 ≤ use_count sh)%nat →
  SenderChannel.move_ctor tx h =
    (SenderChannel.mk (Some p), SenderChannel.mk None, h).
Proof.
  intros Htx Hp Hc. unfold SenderChannel.move_ctor.
  by rewrite Htx, (sp_copy_release p h sh).
Qed.

(** What [create_channel] returns: two handles on one fresh address,
    which holds a newly initialised [Data] with two owners. *)
Lemma create_channel_spec (dflt : T) (Size : Z) (h0 : Heap T) :
  create_channel dflt Size h0 =
    Done (ReceiverChannel.mk (Some (fresh (dom h0))),
          SenderChannel.mk (Some (fresh (dom h0))),
          <[fresh (dom h0) := mkShared 2 (Data_init dflt Size)]> h0).
Proof.
  unfold create_channel, ReceiverChannel.ctor, make_shared,
    SenderChannel.ctor.
  cbn [ReceiverChannel.internal].
  set (p := fresh (dom h0)). set (d := Data_init dflt Size).
  set (h1 := <[p := mkShared 1 d]> h0).
  assert (sp_copy (Some p) h1 = <[p := mkShared 2 d]> h0) as E1.
  { rewrite (sp_copy_Some p h1 (mkShared 1 d)) by apply lookup_insert_eq.
    apply insert_insert_eq. }
  rewrite E1.
  rewrite (sp_copy_release p _ (mkShared 2 d))
    by (apply lookup_insert_eq || (cbn; lia)).
  rewrite (rx_move_ctor_spec p _ _ (mkShared 2 d))
    by (done || apply lookup_insert_eq || (cbn; lia)).
  rewrite (tx_move_ctor_spec p _ _ (mkShared 2 d))
    by (done || apply lookup_insert_eq || (cbn; lia)).
  done.
Qed.

Lemma fresh_address_free (h0 : Heap T) : h0 !! fresh (dom h0) = None.
Proof. apply not_elem_of_dom, is_fresh. Qed.
End ownership.

(** ** Channels in use *)

Section reachable.
Context {T : Type} (moved : T → T) (dflt : T) (Size : Z).
Hypothesis Size_pos : 1 ≤ Size.
Hypothesis Size_int : Size ≤ INT_MAX.

(** Every state of a channel made by [create_channel] and used through
    its two handles is a ring, on the address both handles hold, that
    contains what was sent and not yet received. *)
Lemma reach (h0 : Heap T) rx tx (h1 : Heap T) (ops : list (op T)) :
  create_channel dflt Size h0 = Done (rx, tx, h1) →
  ∃ p sh1, bound p rx tx ∧ h1 !! p = Some sh1 ∧
    obj sh1 = Data_init dflt Size ∧ use_count sh1 = 2%nat ∧
    match run_body moved ops (Data_init dflt Size) with
    | Done (es, d) =>
        run moved rx tx ops h1 = Done (es, store p d h1) ∧
        store p d h1 !! p = Some (mkShared 2 d) ∧
        ∃ q, ring Size d q ∧ sent es = received es ++ q
    | Blocks => run moved rx tx ops h1 = Blocks
    | Undefined => False
    end.
Proof using Size_pos Size_int.
  rewrite create_channel_spec. intros [= <- <- <-].
  set (p := fresh (dom h0)).
  exists p, (mkShared 2 (Data_init dflt Size)).
  assert (<[p := mkShared 2 (Data_init dflt Size)]> h0 !! p =
          Some (mkShared 2 (Data_init dflt Size))) as Hp
    by apply lookup_insert_eq.
  assert (bound p (ReceiverChannel.mk (Some p)) (SenderChannel.mk (Some p)))
    as Hb by done.
  split; [done|]. split; [done|]. split; [done|]. split; [done|].
  rewrite (run_bound moved p _ _ ops _ _ Hb Hp).
  cbn [obj].
  pose proof (run_body_ring moved Size Size_pos Size_int ops _ []
                (ring_init Size Size_pos dflt)) as Hr.
  destruct (run_body moved ops (Data_init dflt Size)) as [[es d]| |];
    cbn in *; [|done|done].
  destruct Hr as (q & Hring & Hq & _).
  split; [done|]. split; [by rewrite (lookup_store p d _ _ Hp)|].
  by exists q.
Qed.
End reachable.

(** * Properties of the channel *)

Section channel.
Context {T : Type} (moved : T → T) (dflt : T) (Size : Z).
Hypothesis Size_pos : 1 ≤ Size.
Hypothesis Size_int : Size ≤ INT_MAX.

(** The state of a channel in use, as the later proofs need it. *)
Lemma reach_done (h0 : Heap T) rx tx (h1 : Heap T) (ops : list (op T))
    (es : list (event T)) (h : Heap T) :
  create_channel dflt Size h0 = Done (rx, tx, h1) →
  run moved rx tx ops h1 = Done (es, h) →
  ∃ p d q, bound p rx tx ∧ h !! p = Some (mkShared 2 d) ∧
    ring Size d q ∧ sent es = received es ++ q.
Proof using Size_pos Size_int.
  intros Hc Hrun.
  destruct (reach moved dflt Size Size_pos Size_int h0 rx tx h1 ops Hc)
    as (p & sh1 & Hb & Hp1 & _ & _ & Hm).
  destruct (run_body moved ops (Data_init dflt Size)) as [[es' d]| |];
    [|congruence|done].
  destruct Hm as (Hrun' & Hp & q & Hring & Hq).
  rewrite Hrun' in Hrun. injection Hrun as <- <-.
  by exists p, d, q.
Qed.

(** What does hold of the two counters after any calls: neither is
    negative and their sum is at most the capacity. *)
Lemma counters_within_capacity (h0 : Heap T) rx tx (h1 : Heap T)
    (ops : list (op T)) (es : list (event T)) (h : Heap T) :
  create_channel dflt Size h0 = Done (rx, tx, h1) →
  run moved rx tx ops h1 = Done (es, h) →
  ∃ d, shared_state (ReceiverChannel.internal rx) h = Some d ∧
       0 ≤ read d ∧ 0 ≤ write d ∧ read d + write d ≤ Size.
Proof using Size_pos Size_int.
  intros Hc Hrun.
  destruct (reach_done h0 rx tx h1 ops es h Hc Hrun)
    as (p & d & q & [Hrx _] & Hp & Hring & _).
  destruct Hring as (_ & _ & _ & Hr & Hw & Hsum & _).
  exists d. rewrite Hrx. unfold shared_state. cbn. rewrite Hp. cbn.
  repeat split; lia.
Qed.

Lemma try_send_bound (p : ptr) rx tx (h : Heap T) (sh : Shared T) (v : T) :
  bound p rx tx → h !! p = Some sh →
  SenderChannel.try_send tx v h =
    ('(b, d') ← SenderChannel.try_send_body v (obj sh);
     Done (b, store p d' h)).
Proof.
  intros [_ Htx] Hp. unfold SenderChannel.try_send.
  by rewrite Htx, (with_internal_Some p _ h sh).
Qed.

Lemma try_receive_bound (p : ptr) rx tx (h : Heap T) (sh : Shared T) :
  bound p rx tx → h !! p = Some sh →
  ReceiverChannel.try_receive moved rx h =
    ('(r, d') ← ReceiverChannel.try_receive_body moved (obj sh);
     Done (r, store p d' h)).
Proof.
  intros [Hrx _] Hp. unfold ReceiverChannel.try_receive.
  by rewrite Hrx, (with_internal_Some p _ h sh).
Qed.

Lemma try_send_closed (p : ptr) rx tx (h : Heap T) (sh : Shared T) (v : T) :
  bound p rx tx → h !! p = Some sh →
  open (obj sh) = false ∨ write (obj sh) ≤ 0 →
  SenderChannel.try_send tx v h = Done (false, h).
Proof.
  intros Hb Hp Hc. rewrite (try_send_bound p rx tx h sh) by done.
  rewrite try_send_body_refuses by done. cbn.
  by rewrite store_same.
Qed.

Lemma try_receive_closed (p : ptr) rx tx (h : Heap T) (sh : Shared T) :
  bound p rx tx → h !! p = Some sh →
  open (obj sh) = false ∨ read (obj sh) ≤ 0 →
  ReceiverChannel.try_receive moved rx h = Done (None, h).
Proof.
  intros Hb Hp Hc. rewrite (try_receive_bound p rx tx h sh) by done.
  rewrite try_receive_body_empty by done. cbn.
  by rewrite store_same.
Qed.

Lemma is_open_bound (p : ptr) rx tx (h : Heap T) (sh : Shared T) :
  bound p rx tx → h !! p = Some sh →
  ReceiverChannel.is_open rx h = Done (open (obj sh), h) ∧
  SenderChannel.is_open tx h = Done (open (obj sh), h).
Proof.
  intros [Hrx Htx] Hp.
  unfold ReceiverChannel.is_open, SenderChannel.is_open.
  rewrite Hrx, Htx, !(with_internal_Some p _ h sh) by done. cbn.
  by rewrite store_same.
Qed.

(** C8. [create_channel] returns two handles on one newly allocated
    shared state with [open = true], [head = 0], [tail = 0], the
    readable counter at 0 and the writable counter at [Size]; the first
    [try_receive] on it returns empty and changes nothing. *)
Theorem create_channel_initial_state (h0 : Heap T) :
  ∃ p rx tx h1 d,
    h0 !! p = None ∧
    create_channel dflt Size h0 = Done (rx, tx, h1) ∧
    bound p rx tx ∧
    shared_state (Some p) h1 = Some d ∧
    open d = true ∧ head d = 0 ∧ tail d = 0 ∧
    read d = 0 ∧ write d = Size ∧
    ReceiverChannel.try_receive moved rx h1 = Done (None, h1).
Proof.
  exists (fresh (dom h0)). do 3 eexists. exists (Data_init dflt Size).
  split; [apply fresh_address_free|].
  split; [apply create_channel_spec|].
  split; [done|].
  split; [unfold shared_state; cbn; by rewrite lookup_insert_eq|].
  do 5 (split; [done|]).
  eapply (try_receive_closed _ _ (SenderChannel.mk (Some (fresh (dom h0)))));
    [done|apply lookup_insert_eq|].
  right. cbn. lia.
Qed.

(** C3. In every state of a channel in use, [try_send v] returns false
    and leaves the heap, hence the whole shared state, as it is when the
    channel is closed or the writable counter is zero; otherwise it
    returns true after decrementing the writable counter, storing [v]
    at index [tail], which is within the buffer, advancing [tail] to
    [(tail + 1) mod Size] and incrementing the readable counter. It
    returns false in no other case. *)
Theorem try_send_spec (h0 : Heap T) rx tx (h1 : Heap T)
    (ops : list (op T)) (es : list (event T)) (h : Heap T) (v : T) :
  create_channel dflt Size h0 = Done (rx, tx, h1) →
  run moved rx tx ops h1 = Done (es, h) →
  ∃ p d, bound p rx tx ∧ shared_state (Some p) h = Some d ∧
    (open d = false ∨ write d = 0 →
       SenderChannel.try_send tx v h = Done (false, h)) ∧
    (open d = true ∧ write d ≠ 0 →
       0 ≤ tail d < size (buffer d) ∧
       SenderChannel.try_send tx v h =
         Done (true,
               store p {| open := open d;
                          head := head d;
                          tail := (tail d + 1) mod Size;
                          buffer := <[Z.to_nat (tail d) := v]> (buffer d);
                          read := read d + 1;
                          write := write d - 1 |} h)) ∧
    ((∃ h', SenderChannel.try_send tx v h = Done (false, h')) ↔
       open d = false ∨ write d = 0).
Proof using Size_pos Size_int.
  intros Hc Hrun.
  destruct (reach_done h0 rx tx h1 ops es h Hc Hrun)
    as (p & d & q & Hb & Hp & Hring & _).
  pose proof (ring_in_bounds Size Size_pos Size_int d q Hring) as Hin.
  pose proof Hring as (Hs & _ & _ & _ & Hw & _).
  exists p, d. split; [done|].
  split; [unfold shared_state; cbn; by rewrite Hp|].
  assert (open d = false ∨ write d = 0 →
          SenderChannel.try_send tx v h = Done (false, h)) as Hrefuse.
  { intros Hcl. apply (try_send_closed p rx tx h (mkShared 2 d)); [done..|].
    cbn. destruct Hcl; [by left|right; lia]. }
  assert (open d = true ∧ write d ≠ 0 →
          SenderChannel.try_send tx v h =
            Done (true, store p (enqueued v d) h)) as Haccept.
  { intros [Ho Hnz].
    rewrite (try_send_bound p rx tx h (mkShared 2 d)) by done. cbn [obj].
    rewrite try_send_body_accepts by (done || lia). done. }
  split; [done|]. split.
  - intros Hon. split; [apply Hin|].
    rewrite Haccept by done. unfold enqueued. by rewrite Hs.
  - split.
    + intros [h' Hf].
      destruct (open d) eqn:Ho; [|by left].
      destruct (decide (write d = 0)) as [|Hnz]; [by right|].
      rewrite Haccept in Hf by done. done.
    + intros Hcl. exists h. by apply Hrefuse.
Qed.

(** C7. On an open channel in use whose readable counter is zero and
    whose writable counter is at least one, [try_send x] returns true
    and the [try_receive] that follows at once returns [x]. *)
Theorem try_send_try_receive_round_trip (h0 : Heap T) rx tx (h1 : Heap T)
    (ops : list (op T)) (es : list (event T)) (h : Heap T) (d : Data T)
    (x : T) :
  create_channel dflt Size h0 = Done (rx, tx, h1) →
  run moved rx tx ops h1 = Done (es, h) →
  shared_state (ReceiverChannel.internal rx) h = Some d →
  open d = true → read d = 0 → 1 ≤ write d →
  ∃ h' h'',
    SenderChannel.try_send tx x h = Done (true, h') ∧
    ReceiverChannel.try_receive moved rx h' = Done (Some x, h'').
Proof using Size_pos Size_int.
  intros Hc Hrun Hd Ho Hr Hw.
  destruct (reach_done h0 rx tx h1 ops es h Hc Hrun)
    as (p & d' & q & Hb & Hp & Hring & _).
  pose proof Hb as [Hrx _]. rewrite Hrx in Hd.
  unfold shared_state in Hd. cbn in Hd. rewrite Hp in Hd.
  injection Hd as ->.
  pose proof (ring_in_bounds Size Size_pos Size_int d q Hring) as Hin.
  assert (q = []) as ->.
  { destruct Hring as (_ & _ & _ & Hl & _). destruct q; [done|].
    cbn in Hl. lia. }
  pose proof (ring_enqueued Size Size_pos d [] x Hring ltac:(lia)) as Hring'.
  cbn [app] in Hring'.
  pose proof (ring_in_bounds Size Size_pos Size_int _ _ Hring') as Hin'.
  exists (store p (enqueued x d) h). eexists. split.
  - rewrite (try_send_bound p rx tx h (mkShared 2 d)) by done. cbn [obj].
    by rewrite try_send_body_accepts by (done || lia).
  - rewrite (try_receive_bound p rx tx _ (mkShared 2 (enqueued x d)))
      by (done || by apply (lookup_store p _ h (mkShared 2 d))).
    cbn [obj].
    rewrite (try_receive_body_takes moved x);
      [done|done|done|cbn; lia|].
    apply (ring_head Size Size_pos _ x [] Hring').
Qed.
(** C4. Whatever calls are made on a channel in use, in whatever
    order, and whichever of them are blocking, the values delivered so
    far are the first values enqueued, in the order of enqueueing; once
    as many values have been delivered as the [n] that were enqueued,
    they are exactly [v1..vn]. *)
Theorem fifo_delivery (h0 : Heap T) rx tx (h1 : Heap T)
    (ops : list (op T)) (es : list (event T)) (h : Heap T) :
  create_channel dflt Size h0 = Done (rx, tx, h1) →
  run moved rx tx ops h1 = Done (es, h) →
  received es = take (length (received es)) (sent es) ∧
  ∀ vs : list T, sent es = vs → length (received es) = length vs →
    received es = vs.
Proof using Size_pos Size_int.
  intros Hc Hrun.
  destruct (reach_done h0 rx tx h1 ops es h Hc Hrun)
    as (p & d & q & _ & _ & _ & Hq).
  split.
  - rewrite Hq. by rewrite take_app_length.
  - intros vs <- Hlen. rewrite Hq in Hlen |- *.
    rewrite length_app in Hlen.
    destruct q; [by rewrite app_nil_r|]. cbn in Hlen. lia.
Qed.

(** C10. No sequence of calls on a channel in use runs into undefined
    behaviour, an array subscript out of range included, and in every
    state it reaches the buffer has [Size] slots and [head] and [tail]
    lie in [0, Size). *)
Theorem head_tail_in_bounds (h0 : Heap T) rx tx (h1 : Heap T)
    (ops : list (op T)) :
  create_channel dflt Size h0 = Done (rx, tx, h1) →
  run moved rx tx ops h1 ≠ Undefined ∧
  ∀ (es : list (event T)) (h : Heap T),
    run moved rx tx ops h1 = Done (es, h) →
    ∃ d, shared_state (ReceiverChannel.internal rx) h = Some d ∧
         shared_state (SenderChannel.internal tx) h = Some d ∧
         size (buffer d) = Size ∧
         0 ≤ head d < Size ∧ 0 ≤ tail d < Size.
Proof using Size_pos Size_int.
  intros Hc. split.
  - destruct (reach moved dflt Size Size_pos Size_int h0 rx tx h1 ops Hc)
      as (p & sh1 & _ & _ & _ & _ & Hm).
    destruct (run_body moved ops (Data_init dflt Size)) as [[es' d]| |];
      [|congruence|done].
    destruct Hm as [-> _]. done.
  - intros es h Hrun.
    destruct (reach_done h0 rx tx h1 ops es h Hc Hrun)
      as (p & d & q & [Hrx Htx] & Hp & Hring & _).
    pose proof (ring_in_bounds Size Size_pos Size_int d q Hring)
      as (Hh & Ht & _).
    pose proof Hring as (Hs & _).
    exists d. rewrite Hrx, Htx. unfold shared_state. cbn. rewrite Hp. cbn.
    rewrite Hs in Hh, Ht. done.
Qed.

Lemma run_app rx tx (a b : list (op T)) (h : Heap T) :
  run moved rx tx (a ++ b) h =
    ('(es1, ha) ← run moved rx tx a h;
     '(es2, hb) ← run moved rx tx b ha;
     Done (es1 ++ es2, hb)).
Proof.
  revert h. induction a as [|o a IH]; intros h; cbn.
  - by destruct (run moved rx tx b h) as [[es2 hb]| |].
  - destruct (step moved rx tx o h) as [[e h1]| |]; cbn; [|done|done].
    rewrite IH.
    destruct (run moved rx tx a h1) as [[es1 ha]| |]; cbn; [|done|done].
    by destruct (run moved rx tx b ha) as [[es2 hb]| |].
Qed.

(** Calls on a ring at [p] leave a ring at [p]; a closed one stays
    closed. *)
Lemma run_from_ring (p : ptr) rx tx (ops : list (op T))
    (es : list (event T)) (h h' : Heap T) (d : Data T) (q : list T) :
  bound p rx tx → h !! p = Some (mkShared 2 d) → ring Size d q →
  run moved rx tx ops h = Done (es, h') →
  ∃ d' q', h' !! p = Some (mkShared 2 d') ∧ ring Size d' q' ∧
    (open d = false → open d' = false).
Proof using Size_pos Size_int.
  intros Hb Hp Hring Hrun.
  rewrite (run_bound moved p rx tx ops h _ Hb Hp) in Hrun. cbn [obj] in Hrun.
  pose proof (run_body_ring moved Size Size_pos Size_int ops d q Hring) as Hr.
  destruct (run_body moved ops d) as [[es' d']| |]; cbn in *; [|done|done].
  injection Hrun as <- <-.
  destruct Hr as (q' & Hring' & _ & Hcl).
  exists d', q'. split; [by rewrite (lookup_store p d' h _ Hp)|done].
Qed.

Lemma step_close (p : ptr) rx tx (c : op T) (h : Heap T) (sh : Shared T) :
  bound p rx tx → h !! p = Some sh → is_close c = true →
  step moved rx tx c h = Done (Closed, store p (set_open false (obj sh)) h).
Proof.
  intros Hb Hp Hc. rewrite (step_bound moved p rx tx c h sh) by done.
  by destruct c.
Qed.

(** C5. On a channel in use the open flag, once false, is false after
    any further calls; and after any sequence of calls that contains a
    [close], on either handle, the flag is false, [is_open] says so on
    both handles, [try_send] returns false and [try_receive] returns
    empty, none of them changing anything. *)
Theorem closed_is_terminal (h0 : Heap T) rx tx (h1 : Heap T) :
  create_channel dflt Size h0 = Done (rx, tx, h1) →
  (∀ (ops1 ops2 : list (op T)) (es1 es2 : list (event T))
     (ha hb : Heap T) (da : Data T),
     run moved rx tx ops1 h1 = Done (es1, ha) →
     run moved rx tx ops2 ha = Done (es2, hb) →
     shared_state (ReceiverChannel.internal rx) ha = Some da →
     open da = false →
     ∃ db, shared_state (ReceiverChannel.internal rx) hb = Some db ∧
           open db = false) ∧
  (∀ (ops1 ops2 : list (op T)) (c : op T) (es : list (event T))
     (h : Heap T) (v : T),
     is_close c = true →
     run moved rx tx (ops1 ++ c :: ops2) h1 = Done (es, h) →
     (∃ d, shared_state (ReceiverChannel.internal rx) h = Some d ∧
           open d = false) ∧
     ReceiverChannel.is_open rx h = Done (false, h) ∧
     SenderChannel.is_open tx h = Done (false, h) ∧
     SenderChannel.try_send tx v h = Done (false, h) ∧
     ReceiverChannel.try_receive moved rx h = Done (None, h)).
Proof using Size_pos Size_int.
  intros Hc. split.
  - intros ops1 ops2 es1 es2 ha hb da Hrun1 Hrun2 Hda Ho.
    destruct (reach_done h0 rx tx h1 ops1 es1 ha Hc Hrun1)
      as (p & d & q & Hb & Hp & Hring & _).
    pose proof Hb as [Hrx _]. rewrite Hrx in Hda |- *.
    unfold shared_state in Hda |- *. cbn in Hda |- *. rewrite Hp in Hda.
    injection Hda as ->.
    destruct (run_from_ring p rx tx ops2 es2 ha hb da q Hb Hp Hring Hrun2)
      as (db & q' & Hpb & _ & Hcl).
    exists db. rewrite Hpb. auto.
  - intros ops1 ops2 c es h v Hcl Hrun.
    rewrite run_app in Hrun.
    destruct (run moved rx tx ops1 h1) as [[es1 ha]| |] eqn:Hrun1;
      cbn in Hrun; [|done|done].
    destruct (reach_done h0 rx tx h1 ops1 es1 ha Hc Hrun1)
      as (p & d & q & Hb & Hp & Hring & _).
    rewrite (step_close p rx tx c ha _ Hb Hp Hcl) in Hrun. cbn in Hrun.
    destruct (run moved rx tx ops2 _) as [[es2 hb]| |] eqn:Hrun2;
      cbn in Hrun; [|done|done].
    injection Hrun as <- <-.
    destruct (run_from_ring p rx tx ops2 es2 _ hb (set_open false d) q Hb
                (lookup_store p _ ha _ Hp)
                (ring_set_open Size false d q Hring) Hrun2)
      as (db & q' & Hpb & _ & Ho).
    specialize (Ho eq_refl).
    pose proof Hb as [Hrx _]. rewrite Hrx.
    destruct (is_open_bound p rx tx hb (mkShared 2 db) Hb Hpb) as [Hor Hot].
    cbn [obj] in Hor, Hot. rewrite Ho in Hor, Hot.
    split; [|split; [done|split; [done|split]]].
    + exists db. unfold shared_state. cbn. by rewrite Hpb.
    + apply (try_send_closed p rx tx hb (mkShared 2 db)); [done..|by left].
    + apply (try_receive_closed p rx tx hb (mkShared 2 db)); [done..|by left].
Qed.

Lemma set_open_closed (d : Data T) :
  open d = false → set_open false d = d.
Proof. destruct d; cbn. by intros ->. Qed.

(** Closing a closed channel again, any number of times. *)
Lemma run_closes_closed (p : ptr) rx tx (cs : list (op T)) (h : Heap T)
    (sh : Shared T) :
  bound p rx tx → h !! p = Some sh → open (obj sh) = false →
  forallb is_close cs = true →
  run moved rx tx cs h = Done (map (λ _, Closed) cs, h).
Proof.
  intros Hb Hp Ho. induction cs as [|c cs IH]; intros Hcs; cbn; [done|].
  cbn in Hcs. apply andb_prop in Hcs as [Hc Hcs].
  rewrite (step_close p rx tx c h sh) by done.
  rewrite set_open_closed, store_same by done. cbn.
  by rewrite IH.
Qed.

(** C6. Whatever the state behind the two handles, [close] on either
    of them sets the open flag to false and leaves [head], [tail], the
    buffer, both counters and every other object as they are; any
    non-empty sequence of [close] calls, on either handle and in any
    order, ends in the state one [close] ends in. *)
Theorem close_clears_open_only (p : ptr) rx tx (h : Heap T)
    (sh : Shared T) :
  bound p rx tx → h !! p = Some sh →
  let closed :=
    <[p := mkShared (use_count sh)
             {| open := false;
                head := head (obj sh);
                tail := tail (obj sh);
                buffer := buffer (obj sh);
                read := read (obj sh);
                write := write (obj sh) |}]> h in
  ReceiverChannel.close rx h = Done (tt, closed) ∧
  SenderChannel.close tx h = Done (tt, closed) ∧
  ∀ cs : list (op T), cs ≠ [] → forallb is_close cs = true →
    run moved rx tx cs h = Done (map (λ _, Closed) cs, closed).
Proof.
  intros Hb Hp closed.
  assert (closed = store p (set_open false (obj sh)) h) as Hcl.
  { unfold closed, store. by rewrite Hp. }
  pose proof Hb as [Hrx Htx].
  split; [|split].
  - unfold ReceiverChannel.close. rewrite Hrx.
    rewrite (with_internal_Some p _ h sh) by done. by rewrite Hcl.
  - unfold SenderChannel.close. rewrite Htx.
    rewrite (with_internal_Some p _ h sh) by done. by rewrite Hcl.
  - intros [|c cs] Hne Hcs; [done|]. cbn in Hcs |- *.
    apply andb_prop in Hcs as [Hc Hcs].
    rewrite (step_close p rx tx c h sh) by done. cbn.
    rewrite <- Hcl.
    rewrite (run_closes_closed p rx tx cs closed
               (mkShared (use_count sh) (set_open false (obj sh))));
      [done|done| |done|done].
    apply lookup_insert_eq.
Qed.

(** C9. Moving a handle leaves the heap, hence the open flag, as it
    is: the new handle holds the address and the handle moved from
    holds none. [close] on the spent handle, and its destruction, do
    nothing, in any heap. [close] on the new handle, and its
    destruction, clear the flag; the state is still there for the
    peer's handle, if there is one. *)
Theorem spent_handle_is_inert (p : ptr) rx tx (h : Heap T)
    (sh : Shared T) :
  bound p rx tx → h !! p = Some sh → (1 ≤ use_count sh)%nat →
  let closed := store p (set_open false (obj sh)) h in
  (ReceiverChannel.move_ctor rx h =
     (ReceiverChannel.mk (Some p), ReceiverChannel.mk None, h) ∧
   SenderChannel.move_ctor tx h =
     (SenderChannel.mk (Some p), SenderChannel.mk None, h)) ∧
  (∀ h' : Heap T,
     ReceiverChannel.close (ReceiverChannel.mk None) h' = Done (tt, h') ∧
     ReceiverChannel.dtor (ReceiverChannel.mk None) h' = Done (tt, h') ∧
     SenderChannel.close (SenderChannel.mk None) h' = Done (tt, h') ∧
     SenderChannel.dtor (SenderChannel.mk None) h' = Done (tt, h')) ∧
  (ReceiverChannel.close (ReceiverChannel.mk (Some p)) h =
     Done (tt, closed) ∧
   ReceiverChannel.dtor (ReceiverChannel.mk (Some p)) h =
     Done (tt, sp_release (Some p) closed) ∧
   SenderChannel.close (SenderChannel.mk (Some p)) h =
     Done (tt, closed) ∧
   SenderChannel.dtor (SenderChannel.mk (Some p)) h =
     Done (tt, sp_release (Some p) closed)) ∧
  shared_state (Some p) closed = Some (set_open false (obj sh)) ∧
  ((2 ≤ use_count sh)%nat →
     shared_state (Some p) (sp_release (Some p) closed) =
       Some (set_open false (obj sh))).
Proof.
  intros [Hrx Htx] Hp Hc closed.
  assert (closed !! p =
          Some (mkShared (use_count sh) (set_open false (obj sh)))) as Hcp
    by apply (lookup_store p _ h sh Hp).
  split; [split|split; [|split; [|split]]].
  - by apply (rx_move_ctor_spec p rx h sh).
  - by apply (tx_move_ctor_spec p tx h sh).
  - done.
  - unfold ReceiverChannel.dtor, SenderChannel.dtor,
      ReceiverChannel.close, SenderChannel.close.
    cbn [ReceiverChannel.internal SenderChannel.internal].
    rewrite !(with_internal_Some p _ h sh) by done. done.
  - unfold shared_state. cbn. by rewrite Hcp.
  - intros H2. unfold shared_state, sp_release. cbn. rewrite Hcp. cbn.
    destruct (Nat.leb_spec (use_count sh) 1); [lia|].
    by rewrite lookup_insert_eq.
Qed.
End channel.

(** * The channel of the test suite: [create_channel<int>()] *)

(** C1, as the code has it: on a new [create_channel<int>()],
    [try_send(10)] followed by [try_receive()] delivers 10 and ends with
    the readable counter at 0 and the writable counter at 255, so that
    their sum is no longer the capacity 256. With the blocking
    [receive()] in place of [try_receive()] the sum is 256 again. *)
Theorem try_receive_loses_writable_slot :
  ∃ rx tx h1 h d h' d',
    create_channel (0 : Z) DefaultSize ∅ = Done (rx, tx, h1) ∧
    run moved_int rx tx [TrySend 10; TryReceive] h1 =
      Done ([Sent 10; Got 10], h) ∧
    shared_state (ReceiverChannel.internal rx) h = Some d ∧
    read d = 0 ∧ write d = 255 ∧ read d + write d ≠ DefaultSize ∧
    run moved_int rx tx [TrySend 10; Receive] h1 =
      Done ([Sent 10; Got 10], h') ∧
    shared_state (ReceiverChannel.internal rx) h' = Some d' ∧
    read d' = 0 ∧ write d' = 256 ∧ read d' + write d' = DefaultSize.
Proof.
  eexists _, _, _, _, _, _, _.
  split; [reflexivity|].
  split; [vm_compute; reflexivity|].
  split; [vm_compute; reflexivity|].
  split; [reflexivity|]. split; [reflexivity|]. split; [by vm_compute|].
  split; [vm_compute; reflexivity|].
  split; [vm_compute; reflexivity|].
  split; [reflexivity|]. split; reflexivity.
Qed.

(** C2, as the code has it: on a new [create_channel<int>()] into
    which 10 has been sent, the channel is open, the readable counter is
    1 and the writable counter 255; [try_receive()] returns the 10 stored
    at index [head = 0], advances [head] to 1 and decrements the readable
    counter to 0, and leaves the writable counter at 255. *)
Theorem try_receive_keeps_writable_counter :
  ∃ rx tx h0 h1 d1 h2 d2,
    create_channel (0 : Z) DefaultSize ∅ = Done (rx, tx, h0) ∧
    SenderChannel.try_send tx 10 h0 = Done (true, h1) ∧
    shared_state (ReceiverChannel.internal rx) h1 = Some d1 ∧
    open d1 = true ∧ head d1 = 0 ∧ buffer d1 !! 0%nat = Some 10 ∧
    read d1 = 1 ∧ write d1 = 255 ∧
    ReceiverChannel.try_receive moved_int rx h1 = Done (Some 10, h2) ∧
    shared_state (ReceiverChannel.internal rx) h2 = Some d2 ∧
    head d2 = 1 ∧ read d2 = 0 ∧
    write d2 = 255 ∧ write d2 ≠ write d1 + 1.
Proof.
  eexists _, _, _, _, _, _, _.
  split; [reflexivity|].
  split; [vm_compute; reflexivity|].
  split; [vm_compute; reflexivity|].
  do 5 (split; [reflexivity|]).
  split; [vm_compute; reflexivity|].
  split; [vm_compute; reflexivity|].
  do 3 (split; [reflexivity|]). by vm_compute.
Qed.

(** * The scenarios of the test suite, run on the model *)

(** [SyncSingleWriter]: three sends, three receives in order, an empty
    [try_receive], one more value through, and the receiver moved into a
    handle that is destroyed at the end of its block, which the sender
    sees through [is_open]. *)
Example test_SyncSingleWriter :
  ('(rx, tx, h) ← create_channel (0 : Z) DefaultSize ∅;
   '(_, h) ← SenderChannel.send tx 10 h;
   '(_, h) ← SenderChannel.send tx 20 h;
   '(_, h) ← SenderChannel.send tx 30 h;
   '(r1, h) ← ReceiverChannel.receive moved_int rx h;
   '(r2, h) ← ReceiverChannel.receive moved_int rx h;
   '(r3, h) ← ReceiverChannel.receive moved_int rx h;
   '(r4, h) ← ReceiverChannel.try_receive moved_int rx h;
   '(_, h) ← SenderChannel.send tx 40 h;
   '(r5, h) ← ReceiverChannel.receive moved_int rx h;
   '(o1, h) ← SenderChannel.is_open tx h;
   '(o2, h) ← ReceiverChannel.is_open rx h;
   let '(x, rx_spent, h) := ReceiverChannel.move_ctor rx h in
   '(_, h) ← ReceiverChannel.dtor x h;
   '(o3, h) ← SenderChannel.is_open tx h;
   mret (r1, r2, r3, r4, r5, o1, o2, o3)) =
  Done (10, 20, 30, None, 40, true, true, false).
Proof. vm_compute. reflexivity. Qed.

(** [TrySendAndReceive]: an empty read, a round trip, and closes from
    both sides, after which both non-blocking calls fail. *)
Example test_TrySendAndReceive :
  ('(rx, tx, h) ← create_channel (0 : Z) DefaultSize ∅;
   '(r1, h) ← ReceiverChannel.try_receive moved_int rx h;
   '(b1, h) ← SenderChannel.try_send tx 10 h;
   '(r2, h) ← ReceiverChannel.try_receive moved_int rx h;
   '(o1, h) ← ReceiverChannel.is_open rx h;
   '(o2, h) ← SenderChannel.is_open tx h;
   '(_, h) ← ReceiverChannel.close rx h;
   '(_, h) ← SenderChannel.close tx h;
   '(_, h) ← ReceiverChannel.close rx h;
   '(o3, h) ← SenderChannel.is_open tx h;
   '(o4, h) ← ReceiverChannel.is_open rx h;
   '(b2, h) ← SenderChannel.try_send tx 10 h;
   '(r3, h) ← ReceiverChannel.try_receive moved_int rx h;
   mret (r1, b1, r2, o1, o2, o3, o4, b2, r3)) =
  Done (None, true, Some 10, true, true, false, false, false, None).
Proof. vm_compute. reflexivity. Qed.

(** [Size] successful [try_receive] calls use up the writable slots for
    good: on a channel of capacity 2, after two round trips through
    [try_send] and [try_receive] the buffer is empty and the channel is
    open, and yet [try_send] is refused. *)
Example try_send_refused_on_empty_channel :
  run moved_int Demo.rx Demo.tx
    [TrySend 1; TryReceive; TrySend 2; TryReceive; TrySend 3]
    (Demo.heap_of Demo.fresh_state) =
  Done ([Sent 1; Got 1; Sent 2; Got 2; Refused 3],
        Demo.heap_of (mkData true 0 0 [1; 2] 0 0)).
Proof. reflexivity. Qed.

(** * The theorems at work on a channel of capacity 2 *)

Module DemoRuns.

Lemma Size_pos : 1 ≤ 2.
Proof. lia. Defined.

Lemma Size_int : 2 ≤ INT_MAX.
Proof. unfold INT_MAX. lia. Defined.

Lemma created :
  create_channel (0 : Z) 2 ∅ =
    Done (Demo.rx, Demo.tx, Demo.heap_of Demo.fresh_state).
Proof. reflexivity. Defined.

Lemma run_round :
  run moved_int Demo.rx Demo.tx [TrySend 7; TryReceive]
    (Demo.heap_of Demo.fresh_state) =
    Done ([Sent 7; Got 7], Demo.heap_of Demo.after_round).
Proof. reflexivity. Defined.

Lemma run_send :
  run moved_int Demo.rx Demo.tx [TrySend 7] (Demo.heap_of Demo.fresh_state) =
    Done ([Sent 7], Demo.heap_of Demo.after_send).
Proof. reflexivity. Defined.

Lemma run_exchange :
  run moved_int Demo.rx Demo.tx Demo.exchange
    (Demo.heap_of Demo.fresh_state) =
    Done ([Sent 7; Sent 8; Refused 9; Got 7; Sent 9; Got 8; Got 9],
          Demo.heap_of Demo.after_exchange).
Proof. reflexivity. Defined.

Lemma run_close :
  run moved_int Demo.rx Demo.tx ([TrySend 7] ++ CloseRx :: [Send 8])
    (Demo.heap_of Demo.fresh_state) =
    Done ([Sent 7; Closed; Sent 8], Demo.heap_of Demo.after_close).
Proof. reflexivity. Defined.

Lemma run_after_close :
  run moved_int Demo.rx Demo.tx [Receive] (Demo.heap_of Demo.after_close) =
    Done ([Got 7], Demo.heap_of Demo.after_close_receive).
Proof. reflexivity. Defined.

End DemoRuns.

Lemma try_send_spec_witness :
  ∃ p d, bound p Demo.rx Demo.tx ∧
    shared_state (Some p) (Demo.heap_of Demo.after_send) = Some d ∧
    (open d = false ∨ write d = 0 →
       SenderChannel.try_send Demo.tx 8 (Demo.heap_of Demo.after_send) =
         Done (false, Demo.heap_of Demo.after_send)) ∧
    (open d = true ∧ write d ≠ 0 →
       0 ≤ tail d < size (buffer d) ∧
       SenderChannel.try_send Demo.tx 8 (Demo.heap_of Demo.after_send) =
         Done (true,
               store p {| open := open d;
                          head := head d;
                          tail := (tail d + 1) mod 2;
                          buffer := <[Z.to_nat (tail d) := 8]> (buffer d);
                          read := read d + 1;
                          write := write d - 1 |}
                 (Demo.heap_of Demo.after_send))) ∧
    ((∃ h', SenderChannel.try_send Demo.tx 8 (Demo.heap_of Demo.after_send) =
              Done (false, h')) ↔
       open d = false ∨ write d = 0).
Proof.
  exact (try_send_spec moved_int 0 2 DemoRuns.Size_pos DemoRuns.Size_int
           ∅ Demo.rx Demo.tx _ [TrySend 7] _ _ 8
           DemoRuns.created DemoRuns.run_send).
Defined.

Lemma try_send_try_receive_round_trip_witness :
  ∃ h' h'',
    SenderChannel.try_send Demo.tx 5 (Demo.heap_of Demo.after_round) =
      Done (true, h') ∧
    ReceiverChannel.try_receive moved_int Demo.rx h' = Done (Some 5, h'').
Proof.
  apply (try_send_try_receive_round_trip moved_int 0 2
           DemoRuns.Size_pos DemoRuns.Size_int
           ∅ Demo.rx Demo.tx _ [TrySend 7; TryReceive] _ _ Demo.after_round 5
           DemoRuns.created DemoRuns.run_round).
  - reflexivity.
  - reflexivity.
  - reflexivity.
  - simpl. lia.
Defined.

Lemma fifo_delivery_witness :
  received [Sent 7; Sent 8; Refused 9; Got 7; Sent 9; Got 8; Got 9] = [7; 8; 9].
Proof.
  refine (proj2 (fifo_delivery moved_int 0 2 DemoRuns.Size_pos DemoRuns.Size_int
                   ∅ Demo.rx Demo.tx _ Demo.exchange _ _
                   DemoRuns.created DemoRuns.run_exchange) [7; 8; 9] _ _).
  - reflexivity.
  - reflexivity.
Defined.

Lemma head_tail_in_bounds_witness :
  run moved_int Demo.rx Demo.tx Demo.exchange (Demo.heap_of Demo.fresh_state)
    ≠ Undefined ∧
  ∃ d, shared_state (ReceiverChannel.internal Demo.rx)
         (Demo.heap_of Demo.after_exchange) = Some d ∧
       shared_state (SenderChannel.internal Demo.tx)
         (Demo.heap_of Demo.after_exchange) = Some d ∧
       size (buffer d) = 2 ∧ 0 ≤ head d < 2 ∧ 0 ≤ tail d < 2.
Proof.
  destruct (head_tail_in_bounds moved_int 0 2 DemoRuns.Size_pos DemoRuns.Size_int
              ∅ Demo.rx Demo.tx _ Demo.exchange DemoRuns.created) as [Hdef Hin].
  split.
  - exact Hdef.
  - exact (Hin _ _ DemoRuns.run_exchange).
Defined.

Lemma closed_is_terminal_witness :
  (∃ db, shared_state (ReceiverChannel.internal Demo.rx)
           (Demo.heap_of Demo.after_close_receive) = Some db ∧
         open db = false) ∧
  (∃ d, shared_state (ReceiverChannel.internal Demo.rx)
          (Demo.heap_of Demo.after_close) = Some d ∧ open d = false) ∧
  ReceiverChannel.is_open Demo.rx (Demo.heap_of Demo.after_close) =
    Done (false, Demo.heap_of Demo.after_close) ∧
  SenderChannel.is_open Demo.tx (Demo.heap_of Demo.after_close) =
    Done (false, Demo.heap_of Demo.after_close) ∧
  SenderChannel.try_send Demo.tx 5 (Demo.heap_of Demo.after_close) =
    Done (false, Demo.heap_of Demo.after_close) ∧
  ReceiverChannel.try_receive moved_int Demo.rx (Demo.heap_of Demo.after_close) =
    Done (None, Demo.heap_of Demo.after_close).
Proof.
  destruct (closed_is_terminal moved_int 0 2 DemoRuns.Size_pos DemoRuns.Size_int
              ∅ Demo.rx Demo.tx _ DemoRuns.created) as [Hmono Hclosed].
  split.
  - exact (Hmono _ [Receive] _ _ _ _ Demo.after_close
             DemoRuns.run_close DemoRuns.run_after_close eq_refl eq_refl).
  - exact (Hclosed [TrySend 7] [Send 8] CloseRx _ _ 5 eq_refl DemoRuns.run_close).
Defined.

Lemma close_clears_open_only_witness :
  ReceiverChannel.close Demo.rx (Demo.heap_of Demo.after_send) =
    Done (tt, Demo.heap_of (mkData false 0 1 [7; 0] 1 1)) ∧
  SenderChannel.close Demo.tx (Demo.heap_of Demo.after_send) =
    Done (tt, Demo.heap_of (mkData false 0 1 [7; 0] 1 1)) ∧
  run moved_int Demo.rx Demo.tx [CloseTx; CloseRx; CloseRx; CloseTx]
    (Demo.heap_of Demo.after_send) =
    Done ([Closed; Closed; Closed; Closed],
          Demo.heap_of (mkData false 0 1 [7; 0] 1 1)).
Proof.
  pose proof (close_clears_open_only moved_int 1%positive Demo.rx Demo.tx
                (Demo.heap_of Demo.after_send) (mkShared 2 Demo.after_send))
    as H.
  destruct H as (Hrx & Htx & Hall).
  - split; reflexivity.
  - reflexivity.
  - split; [exact Hrx|]. split; [exact Htx|].
    refine (Hall [CloseTx; CloseRx; CloseRx; CloseTx] _ _).
    + discriminate.
    + reflexivity.
Defined.

Lemma spent_handle_is_inert_witness :
  ReceiverChannel.move_ctor Demo.rx (Demo.heap_of Demo.after_send) =
    (ReceiverChannel.mk (Some 1%positive), ReceiverChannel.mk None,
     Demo.heap_of Demo.after_send) ∧
  ReceiverChannel.dtor (ReceiverChannel.mk None)
    (Demo.heap_of Demo.after_send) =
    Done (tt, Demo.heap_of Demo.after_send) ∧
  shared_state (Some 1%positive)
    (sp_release (Some 1%positive)
       (store 1%positive (set_open false Demo.after_send)
          (Demo.heap_of Demo.after_send))) =
    Some (set_open false Demo.after_send).
Proof.
  pose proof (spent_handle_is_inert 1%positive Demo.rx Demo.tx
                (Demo.heap_of Demo.after_send) (mkShared 2 Demo.after_send))
    as H.
  destruct H as ((Hmove & _) & Hspent & _ & _ & Hpeer).
  - split; reflexivity.
  - reflexivity.
  - simpl. lia.
  - split; [exact Hmove|]. split; [exact (proj1 (proj2 (Hspent _)))|].
    apply Hpeer. simpl. lia.
Defined.

(** * Further properties *)

(** ** What a history does to the flag and to the counters *)

Section effects.
Context {T : Type} (moved : T → T) (Size : Z).
Hypothesis Size_pos : 1 ≤ Size.
Hypothesis Size_int : Size ≤ INT_MAX.

Lemma step_body_effect (o : op T) (d d' : Data T) (q : list T)
    (e : event T) :
  ring Size d q → step_body moved o d = Done (e, d') →
  open d' = open d && negb (is_close o) ∧
  read d' + write d' = read d + write d - lost [o] [e].
Proof using Size_pos Size_int.
  intros Hring.
  pose proof (ring_in_bounds Size Size_pos Size_int d q Hring) as Hb.
  pose proof Hring as (Hs & Hh & Ht & Hr & Hw & Hsum & Hq).
  destruct o as [v|v| | | | ]; cbn.
  - destruct (decide (0 < write d)) as [Hpos|Hz].
    + rewrite send_body_accepts by done. intros [= <- <-]. cbn.
      rewrite andb_true_r. split; [done|lia].
    + by rewrite send_body_blocks by lia.
  - destruct (open d) eqn:Ho; [destruct (decide (0 < write d)) as [Hpos|Hz]|].
    + rewrite try_send_body_accepts by done. intros [= <- <-]. cbn.
      rewrite Ho. split; [done|lia].
    + rewrite try_send_body_refuses by (right; lia). intros [= <- <-].
      rewrite Ho. cbn. split; [done|lia].
    + rewrite try_send_body_refuses by (by left). intros [= <- <-].
      rewrite Ho. cbn. split; [done|lia].
  - destruct q as [|v q].
    + by rewrite receive_body_blocks by (cbn in Hr; lia).
    + cbn in Hr.
      rewrite (receive_body_takes moved v)
        by (done || lia || by eapply ring_head).
      intros [= <- <-]. cbn. rewrite andb_true_r. split; [done|lia].
  - destruct (open d) eqn:Ho; [destruct q as [|v q]|].
    + rewrite try_receive_body_empty by (right; cbn in Hr; lia).
      intros [= <- <-]. rewrite Ho. cbn. split; [done|lia].
    + cbn in Hr.
      rewrite (try_receive_body_takes moved v)
        by (done || lia || by eapply ring_head).
      intros [= <- <-]. cbn. rewrite Ho. split; [done|lia].
    + rewrite try_receive_body_empty by (by left). intros [= <- <-].
      rewrite Ho. cbn. split; [done|lia].
  - intros [= <- <-]. cbn. rewrite andb_false_r. split; [done|lia].
  - intros [= <- <-]. cbn. rewrite andb_false_r. split; [done|lia].
Qed.

Lemma lost_cons (o : op T) (ops : list (op T)) (e : event T)
    (es : list (event T)) :
  lost (o :: ops) (e :: es) = lost [o] [e] + lost ops es.
Proof. destruct o, e; cbn [lost]; lia. Qed.

Lemma lost_nonneg (ops : list (op T)) (es : list (event T)) :
  0 ≤ lost ops es.
Proof.
  revert es. induction ops as [|o ops IH]; intros [|e es]; cbn [lost];
    try lia.
  - destruct o; lia.
  - specialize (IH es). destruct o, e; lia.
Qed.

Lemma lost_no_try_receive (ops : list (op T)) (es : list (event T)) :
  TryReceive ∉ ops → lost ops es = 0.
Proof.
  revert es. induction ops as [|o ops IH]; intros [|e es] Hnot; cbn [lost];
    try done.
  - by destruct o.
  - apply not_elem_of_cons in Hnot as [Hne Hnot].
    specialize (IH es Hnot). destruct o, e; try done.
Qed.

Lemma run_body_effect (ops : list (op T)) (d d' : Data T) (q : list T)
    (es : list (event T)) :
  ring Size d q → run_body moved ops d = Done (es, d') →
  open d' = open d && negb (existsb is_close ops) ∧
  read d' + write d' = read d + write d - lost ops es.
Proof using Size_pos Size_int.
  revert d q es. induction ops as [|o ops IH]; intros d q es Hring Hrun.
  - cbn in Hrun. injection Hrun as <- <-. rewrite andb_true_r. cbn.
    split; [done|lia].
  - pose proof (step_body_ring moved Size Size_pos Size_int o d q Hring)
      as Hstep.
    cbn in Hrun.
    destruct (step_body moved o d) as [[e d1]| |] eqn:Hs; cbn in Hrun, Hstep;
      [|done|done].
    destruct Hstep as (q1 & Hring1 & _).
    destruct (step_body_effect o d d1 q e Hring Hs) as [Ho1 Hc1].
    destruct (run_body moved ops d1) as [[es1 d2]| |] eqn:Hr; cbn in Hrun;
      [|done|done].
    injection Hrun as <- <-.
    destruct (IH d1 q1 es1 Hring1 Hr) as [Ho2 Hc2].
    rewrite lost_cons. split; [|lia].
    rewrite Ho2, Ho1. cbn [existsb]. rewrite negb_orb.
    by rewrite andb_assoc.
Qed.

(** A ring with no free slot and nothing to read stays so: no further
    call enqueues or delivers anything. *)
Lemma run_body_wedged (ops : list (op T)) (d d' : Data T)
    (es : list (event T)) :
  ring Size d [] → write d = 0 →
  run_body moved ops d = Done (es, d') →
  sent es = [] ∧ received es = [] ∧ read d' = 0 ∧ write d' = 0.
Proof using Size_pos Size_int.
  revert d es. induction ops as [|o ops IH]; intros d es Hring Hw; cbn.
  - intros [= <- <-]. destruct Hring as (_ & _ & _ & Hr & _). done.
  - pose proof Hring as (_ & _ & _ & Hr & _). cbn in Hr.
    assert (∃ e, step_body moved o d = Done (e, d) ∧
                 sent [e] = [] ∧ received [e] = [] ∨
            (is_close o = true ∧
             step_body moved o d = Done (Closed, set_open false d)) ∨
            step_body moved o d = Blocks) as Hcases.
    { destruct o as [v|v| | | | ].
      - exists (Sent v). right. right. cbn.
        by rewrite send_body_blocks by lia.
      - exists (Refused v). left. cbn.
        by rewrite try_send_body_refuses by (right; lia).
      - exists Nothing. right. right. cbn.
        by rewrite receive_body_blocks by lia.
      - exists Nothing. left. cbn.
        by rewrite try_receive_body_empty by (right; lia).
      - exists Closed. right. left. done.
      - exists Closed. right. left. done. }
    destruct Hcases as (e & [(Hs & Hse & Hre)|[(Hc & Hs)|Hs]]); rewrite Hs;
      cbn; [| |done].
    + destruct (run_body moved ops d) as [[es1 d2]| |] eqn:Hrun; cbn;
        [|done|done].
      intros [= <- <-].
      destruct (IH d es1 Hring Hw Hrun) as (H1 & H2 & H3 & H4).
      rewrite sent_cons, received_cons, Hse, Hre, H1, H2. done.
    + destruct (run_body moved ops (set_open false d)) as [[es1 d2]| |]
        eqn:Hrun; cbn; [|done|done].
      intros [= <- <-].
      destruct (IH (set_open false d) es1
                  (ring_set_open Size false d [] Hring) Hw Hrun)
        as (H1 & H2 & H3 & H4).
      done.
Qed.

Lemma sends_cons (o : op T) (ops : list (op T)) :
  sends (o :: ops) = sends [o] ++ sends ops.
Proof. by destruct o. Qed.

(** Programs of [send] and [receive] on a ring that has lost no slot:
    they run to the end when they fit, and wait otherwise. *)
Lemma run_body_blocking (ops : list (op T)) (d : Data T) (q : list T) :
  ring Size d q → read d + write d = Size →
  forallb is_blocking ops = true →
  match run_body moved ops d with
  | Done (es, d') =>
      fits Size (read d) ops = true ∧ sent es = sends ops ∧
      length (received es) = receives ops
  | Blocks => fits Size (read d) ops = false
  | Undefined => False
  end.
Proof using Size_pos Size_int.
  revert d q. induction ops as [|o ops IH]; intros d q Hring Hsum Hall;
    cbn [run_body fits].
  - done.
  - cbn in Hall. apply andb_prop in Hall as [Ho Hall].
    pose proof (ring_in_bounds Size Size_pos Size_int d q Hring) as Hb.
    pose proof Hring as (_ & _ & _ & Hr & Hw & _).
    destruct o as [v|v| | | | ]; try done; cbn [step_body].
    + destruct (Z.ltb_spec (read d) Size) as [Hlt|Hge].
      * rewrite send_body_accepts by (done || lia). cbn.
        pose proof (ring_enqueued Size Size_pos d q v Hring ltac:(lia))
          as Hring'.
        specialize (IH (enqueued v d) (q ++ [v]) Hring').
        cbn [read write enqueued] in IH.
        specialize (IH ltac:(lia) Hall).
        destruct (run_body moved ops (enqueued v d)) as [[es d']| |]; cbn;
          [|done|done].
        destruct IH as (Hf & Hse & Hre).
        split; [done|]. split; [|done].
        change (v :: sent es = v :: sends ops). by rewrite Hse.
      * by rewrite send_body_blocks by lia.
    + destruct q as [|v q].
      * rewrite receive_body_blocks by (cbn in Hr; lia). cbn in Hr.
        by destruct (Z.ltb_spec 0 (read d)); [lia|].
      * cbn in Hr.
        rewrite (receive_body_takes moved v)
          by (done || lia || by eapply ring_head).
        cbn.
        pose proof (ring_dequeued moved Size Size_pos d q v (write d + 1)
                      Hring ltac:(lia) ltac:(lia)) as Hring'.
        specialize (IH _ q Hring').
        cbn [read write dequeued] in IH.
        specialize (IH ltac:(lia) Hall).
        destruct (Z.ltb_spec 0 (read d)); [|lia]. cbn.
        destruct (run_body moved ops _) as [[es d']| |]; cbn; [|done|done].
        destruct IH as (Hf & Hse & Hre).
        split; [done|]. split.
        -- by change (sent es = sends ops).
        -- change (S (length (received es)) = S (receives ops)).
           by rewrite Hre.
Qed.
End effects.

(** ** Channels in use, with their history *)

Section history.
Context {T : Type} (moved : T → T) (dflt : T) (Size : Z).
Hypothesis Size_pos : 1 ≤ Size.
Hypothesis Size_int : Size ≤ INT_MAX.

(** A run on the handles of [create_channel] is the run of the bodies on
    the new [Data], written back at its address. *)
Lemma run_created (h0 : Heap T) rx tx (h1 : Heap T) (ops : list (op T)) :
  create_channel dflt Size h0 = Done (rx, tx, h1) →
  ∃ p, bound p rx tx ∧ h0 !! p = None ∧
    h1 = <[p := mkShared 2 (Data_init dflt Size)]> h0 ∧
    run moved rx tx ops h1 =
      ('(es, d) ← run_body moved ops (Data_init dflt Size);
       Done (es, <[p := mkShared 2 d]> h0)).
Proof.
  rewrite create_channel_spec. intros [= <- <- <-].
  set (p := fresh (dom h0)). exists p.
  assert (bound p (ReceiverChannel.mk (Some p)) (SenderChannel.mk (Some p)))
    as Hb by done.
  split; [done|]. split; [apply fresh_address_free|]. split; [done|].
  rewrite (run_bound moved p _ _ ops _ (mkShared 2 (Data_init dflt Size)) Hb)
    by apply lookup_insert_eq.
  cbn [obj].
  destruct (run_body moved ops (Data_init dflt Size)) as [[es d]| |]; cbn;
    [|done|done].
  unfold store. rewrite lookup_insert_eq. cbn. by rewrite insert_insert_eq.
Qed.

Lemma reach_history (h0 : Heap T) rx tx (h1 : Heap T) (ops : list (op T))
    (es : list (event T)) (h : Heap T) :
  create_channel dflt Size h0 = Done (rx, tx, h1) →
  run moved rx tx ops h1 = Done (es, h) →
  ∃ p d q, bound p rx tx ∧ h0 !! p = None ∧
    h = <[p := mkShared 2 d]> h0 ∧ h !! p = Some (mkShared 2 d) ∧
    ring Size d q ∧ sent es = received es ++ q ∧
    open d = negb (existsb is_close ops) ∧
    read d + write d = Size - lost ops es.
Proof using Size_pos Size_int.
  intros Hc Hrun.
  destruct (run_created h0 rx tx h1 ops Hc) as (p & Hb & Hfree & _ & Hrun').
  rewrite Hrun' in Hrun.
  pose proof (run_body_ring moved Size Size_pos Size_int ops _ []
                (ring_init Size Size_pos dflt)) as Hr.
  destruct (run_body moved ops (Data_init dflt Size)) as [[es' d]| |] eqn:Hrb;
    cbn in Hrun, Hr; [|done|done].
  injection Hrun as <- <-.
  destruct Hr as (q & Hring & Hq & _).
  destruct (run_body_effect moved Size Size_pos Size_int ops _ d [] es'
              (ring_init Size Size_pos dflt) Hrb) as [Ho Hsum].
  exists p, d, q. split; [done|]. split; [done|]. split; [done|].
  split; [apply lookup_insert_eq|]. split; [done|]. split; [done|].
  split; [done|]. cbn in Hsum. lia.
Qed.

Lemma ring_pending (d : Data T) (q : list T) (es : list (event T)) :
  ring Size d q → sent es = received es ++ q →
  read d = pending es ∧
  sent es !! length (received es) = q !! 0%nat.
Proof.
  intros (_ & _ & _ & Hr & _) Hq. unfold pending. rewrite Hq.
  rewrite length_app. split; [lia|].
  rewrite lookup_app_r by lia. by rewrite Nat.sub_diag.
Qed.

Lemma send_bound (p : ptr) rx tx (h : Heap T) (sh : Shared T) (v : T) :
  bound p rx tx → h !! p = Some sh →
  SenderChannel.send tx v h =
    ('(u, d') ← SenderChannel.send_body v (obj sh); Done (u, store p d' h)).
Proof.
  intros [_ Htx] Hp. unfold SenderChannel.send.
  by rewrite Htx, (with_internal_Some p _ h sh).
Qed.

Lemma receive_bound (p : ptr) rx tx (h : Heap T) (sh : Shared T) :
  bound p rx tx → h !! p = Some sh →
  ReceiverChannel.receive moved rx h =
    ('(v, d') ← ReceiverChannel.receive_body moved (obj sh);
     Done (v, store p d' h)).
Proof.
  intros [Hrx _] Hp. unfold ReceiverChannel.receive.
  by rewrite Hrx, (with_internal_Some p _ h sh).
Qed.

(** X1. In every state of a channel in use, open or closed, the blocking
    [send v] waits when the writable counter is zero and otherwise
    completes after decrementing that counter, storing [v] at index
    [tail], which is within the buffer, advancing [tail] to
    [(tail + 1) mod Size] and incrementing the readable counter. *)
Theorem send_spec (h0 : Heap T) rx tx (h1 : Heap T) (ops : list (op T))
    (es : list (event T)) (h : Heap T) (v : T) :
  create_channel dflt Size h0 = Done (rx, tx, h1) →
  run moved rx tx ops h1 = Done (es, h) →
  ∃ p d, bound p rx tx ∧ shared_state (Some p) h = Some d ∧
    (write d = 0 → SenderChannel.send tx v h = Blocks) ∧
    (write d ≠ 0 →
       0 ≤ tail d < size (buffer d) ∧
       SenderChannel.send tx v h =
         Done (tt,
               store p {| open := open d;
                          head := head d;
                          tail := (tail d + 1) mod Size;
                          buffer := <[Z.to_nat (tail d) := v]> (buffer d);
                          read := read d + 1;
                          write := write d - 1 |} h)).
Proof using Size_pos Size_int.
  intros Hc Hrun.
  destruct (reach_history h0 rx tx h1 ops es h Hc Hrun)
    as (p & d & q & Hb & _ & _ & Hp & Hring & _).
  pose proof (ring_in_bounds Size Size_pos Size_int d q Hring) as Hin.
  pose proof Hring as (Hs & _ & _ & _ & Hw & _).
  exists p, d. split; [done|].
  split; [unfold shared_state; cbn; by rewrite Hp|].
  rewrite (send_bound p rx tx h (mkShared 2 d)) by done. cbn [obj].
  split.
  - intros Hz. by rewrite send_body_blocks by lia.
  - intros Hnz. split; [apply Hin|].
    rewrite send_body_accepts by (done || lia). cbn.
    unfold enqueued. by rewrite Hs.
Qed.

(** X2. In every state of a channel in use, open or closed, the readable
    counter is the number of values enqueued and not yet delivered. The
    blocking [receive] waits when there is none; otherwise it returns the
    oldest of them, which is the one stored at index [head], leaves that
    slot moved from, advances [head] to [(head + 1) mod Size], decrements
    the readable counter and increments the writable one. *)
Theorem receive_spec (h0 : Heap T) rx tx (h1 : Heap T) (ops : list (op T))
    (es : list (event T)) (h : Heap T) :
  create_channel dflt Size h0 = Done (rx, tx, h1) →
  run moved rx tx ops h1 = Done (es, h) →
  ∃ p d, bound p rx tx ∧ shared_state (Some p) h = Some d ∧
    read d = pending es ∧
    (pending es = 0 → ReceiverChannel.receive moved rx h = Blocks) ∧
    (pending es ≠ 0 → is_Some (sent es !! length (received es))) ∧
    (∀ v, sent es !! length (received es) = Some v →
       buffer d !! Z.to_nat (head d) = Some v ∧
       ReceiverChannel.receive moved rx h =
         Done (v,
               store p {| open := open d;
                          head := (head d + 1) mod Size;
                          tail := tail d;
                          buffer := <[Z.to_nat (head d) := moved v]> (buffer d);
                          read := read d - 1;
                          write := write d + 1 |} h)).
Proof using Size_pos Size_int.
  intros Hc Hrun.
  destruct (reach_history h0 rx tx h1 ops es h Hc Hrun)
    as (p & d & q & Hb & _ & _ & Hp & Hring & Hq & _).
  pose proof (ring_in_bounds Size Size_pos Size_int d q Hring) as Hin.
  destruct (ring_pending d q es Hring Hq) as [Hpend Hnext].
  pose proof Hring as (Hs & _ & _ & Hr & _).
  exists p, d. split; [done|].
  split; [unfold shared_state; cbn; by rewrite Hp|].
  split; [done|].
  rewrite (receive_bound p rx tx h (mkShared 2 d)) by done. cbn [obj].
  split; [|split].
  - intros Hz. by rewrite receive_body_blocks by lia.
  - intros Hnz. rewrite Hnext. destruct q; [cbn in Hr; lia|]. by eexists.
  - intros v Hv. rewrite Hnext in Hv. destruct q as [|v' q]; [done|].
    injection Hv as ->.
    pose proof (ring_head Size Size_pos d v q Hring) as Hhead.
    split; [done|].
    rewrite (receive_body_takes moved v) by (done || (cbn in Hr; lia)).
    cbn. unfold dequeued. by rewrite Hs.
Qed.

(** X3. The two counters of a channel in use are determined by its
    history: the readable counter is the number of values enqueued and
    not yet delivered, and the writable counter is [Size] less that number
    and less the number of [try_receive] calls that returned a value. So
    the values waiting never exceed what is left of the capacity, and
    the two counters add up to [Size] as long as [try_receive] is not
    called. *)
Theorem counters_from_history (h0 : Heap T) rx tx (h1 : Heap T)
    (ops : list (op T)) (es : list (event T)) (h : Heap T) :
  create_channel dflt Size h0 = Done (rx, tx, h1) →
  run moved rx tx ops h1 = Done (es, h) →
  ∃ d, shared_state (ReceiverChannel.internal rx) h = Some d ∧
    read d = pending es ∧
    write d = Size - pending es - lost ops es ∧
    0 ≤ pending es ∧ 0 ≤ lost ops es ∧ pending es + lost ops es ≤ Size ∧
    (TryReceive ∉ ops → read d + write d = Size).
Proof using Size_pos Size_int.
  intros Hc Hrun.
  destruct (reach_history h0 rx tx h1 ops es h Hc Hrun)
    as (p & d & q & [Hrx _] & _ & _ & Hp & Hring & Hq & _ & Hsum).
  destruct (ring_pending d q es Hring Hq) as [Hpend _].
  pose proof Hring as (_ & _ & _ & Hr & Hw & _).
  pose proof (lost_nonneg ops es) as Hl.
  exists d. rewrite Hrx. unfold shared_state. cbn. rewrite Hp. cbn.
  split; [done|]. split; [done|]. split; [lia|]. split; [lia|].
  split; [done|]. split; [lia|].
  intros Hno. rewrite (lost_no_try_receive ops es Hno) in Hsum. lia.
Qed.

(** X4. [send] waits, and [try_send] is refused, on a channel in use
    exactly when the values waiting and the slots lost to [try_receive]
    add up to [Size]; with fewer, [send] completes, whether the
    channel is open or not. *)
Theorem send_waits_iff_no_slot (h0 : Heap T) rx tx (h1 : Heap T)
    (ops : list (op T)) (es : list (event T)) (h : Heap T) (v : T) :
  create_channel dflt Size h0 = Done (rx, tx, h1) →
  run moved rx tx ops h1 = Done (es, h) →
  (pending es + lost ops es = Size →
     SenderChannel.send tx v h = Blocks ∧
     SenderChannel.try_send tx v h = Done (false, h)) ∧
  (pending es + lost ops es ≠ Size →
     ∃ h', SenderChannel.send tx v h = Done (tt, h')).
Proof using Size_pos Size_int.
  intros Hc Hrun.
  destruct (reach_history h0 rx tx h1 ops es h Hc Hrun)
    as (p & d & q & Hb & _ & _ & Hp & Hring & Hq & _ & Hsum).
  destruct (ring_pending d q es Hring Hq) as [Hpend _].
  pose proof (ring_in_bounds Size Size_pos Size_int d q Hring) as Hin.
  pose proof Hring as (_ & _ & _ & _ & Hw & _).
  rewrite (send_bound p rx tx h (mkShared 2 d)) by done. cbn [obj].
  split.
  - intros Hfull. split.
    + by rewrite send_body_blocks by lia.
    + apply (try_send_closed p rx tx h (mkShared 2 d)); [done..|].
      right. cbn. lia.
  - intros Hroom. rewrite send_body_accepts by (done || lia). cbn.
    by eexists.
Qed.

(** X5. Once as many [try_receive] calls have returned a value as the
    channel has slots, the channel is dead: whatever calls complete
    afterwards, none of them enqueues a value and none delivers one. *)
Theorem wedged_forever (h0 : Heap T) rx tx (h1 : Heap T)
    (ops1 ops2 : list (op T)) (es1 es2 : list (event T)) (ha hb : Heap T) :
  create_channel dflt Size h0 = Done (rx, tx, h1) →
  run moved rx tx ops1 h1 = Done (es1, ha) →
  lost ops1 es1 = Size →
  run moved rx tx ops2 ha = Done (es2, hb) →
  sent es2 = [] ∧ received es2 = [].
Proof using Size_pos Size_int.
  intros Hc Hrun1 Hlost Hrun2.
  destruct (reach_history h0 rx tx h1 ops1 es1 ha Hc Hrun1)
    as (p & d & q & Hb & _ & _ & Hp & Hring & Hq & _ & Hsum).
  pose proof Hring as (_ & _ & _ & Hr & Hw & _).
  assert (q = []) as -> by (destruct q; [done|cbn in Hr; lia]).
  rewrite (run_bound moved p rx tx ops2 ha _ Hb Hp) in Hrun2.
  cbn [obj] in Hrun2.
  destruct (run_body moved ops2 d) as [[es d']| |] eqn:Hrb; cbn in Hrun2;
    [|done|done].
  injection Hrun2 as <- <-.
  destruct (run_body_wedged moved Size Size_pos Size_int ops2 d d' es
              Hring ltac:(cbn in Hr; lia) Hrb) as (H1 & H2 & _).
  done.
Qed.

(** X6. A program of blocking calls only, [send] and [receive] in any
    interleaving, on a new channel: it runs to its end exactly when no
    [send] comes with [Size] values waiting and no [receive] with none,
    and then every value of the program is enqueued and the values
    delivered are the first ones sent, as many as there are [receive]
    calls; otherwise the program comes to a call that waits. *)
Theorem blocking_program (h0 : Heap T) rx tx (h1 : Heap T)
    (ops : list (op T)) :
  create_channel dflt Size h0 = Done (rx, tx, h1) →
  forallb is_blocking ops = true →
  if fits Size 0 ops
  then ∃ es h, run moved rx tx ops h1 = Done (es, h) ∧
         sent es = sends ops ∧
         received es = take (receives ops) (sends ops)
  else run moved rx tx ops h1 = Blocks.
Proof using Size_pos Size_int.
  intros Hc Hall.
  destruct (run_created h0 rx tx h1 ops Hc) as (p & _ & _ & _ & ->).
  pose proof (ring_init Size Size_pos dflt) as Hinit.
  pose proof (run_body_blocking moved Size Size_pos Size_int ops
                (Data_init dflt Size) [] Hinit ltac:(cbn; lia) Hall) as Hblk.
  pose proof (run_body_ring moved Size Size_pos Size_int ops _ [] Hinit)
    as Hfifo.
  cbn [read Data_init] in Hblk.
  destruct (run_body moved ops (Data_init dflt Size)) as [[es d]| |];
    cbn in Hfifo |- *; [| |done].
  - destruct Hblk as (-> & Hse & Hre).
    destruct Hfifo as (q & _ & Hq & _).
    change (sent es = received es ++ q) in Hq.
    eexists _, _. split; [done|]. split; [done|].
    rewrite <- Hre, <- Hse, Hq. by rewrite take_app_length.
  - by rewrite Hblk.
Qed.

(** X7. On a channel in use [is_open] returns, on either handle and
    without changing anything, whether no [close] has been called so
    far: calls that are refused, find nothing or fill the buffer do not
    close a channel. *)
Theorem is_open_iff_no_close (h0 : Heap T) rx tx (h1 : Heap T)
    (ops : list (op T)) (es : list (event T)) (h : Heap T) :
  create_channel dflt Size h0 = Done (rx, tx, h1) →
  run moved rx tx ops h1 = Done (es, h) →
  ReceiverChannel.is_open rx h = Done (negb (existsb is_close ops), h) ∧
  SenderChannel.is_open tx h = Done (negb (existsb is_close ops), h).
Proof using Size_pos Size_int.
  intros Hc Hrun.
  destruct (reach_history h0 rx tx h1 ops es h Hc Hrun)
    as (p & d & q & Hb & _ & _ & Hp & _ & _ & Ho & _).
  rewrite <- Ho. apply (is_open_bound p rx tx h (mkShared 2 d) Hb Hp).
Qed.

Lemma dtor_live (p : ptr) rx tx (h : Heap T) (sh : Shared T) :
  bound p rx tx → h !! p = Some sh →
  ReceiverChannel.dtor rx h =
    Done (tt, sp_release (Some p) (store p (set_open false (obj sh)) h)) ∧
  SenderChannel.dtor tx h =
    Done (tt, sp_release (Some p) (store p (set_open false (obj sh)) h)).
Proof.
  intros [Hrx Htx] Hp.
  unfold ReceiverChannel.dtor, SenderChannel.dtor,
    ReceiverChannel.close, SenderChannel.close.
  rewrite Hrx, Htx, !(with_internal_Some p _ h sh) by done. done.
Qed.

(** Closing and releasing a state with [n] owners at a free address. *)
Lemma release_closed (p : ptr) (h0 : Heap T) (d : Data T) (n : nat) :
  h0 !! p = None →
  sp_release (Some p)
    (store p (set_open false d) (<[p := mkShared n d]> h0)) =
  if (n <=? 1)%nat then h0
  else <[p := mkShared (Nat.pred n) (set_open false d)]> h0.
Proof.
  intros Hfree. unfold store, sp_release.
  rewrite lookup_insert_eq. cbn [use_count obj]. rewrite insert_insert_eq.
  rewrite lookup_insert_eq. cbn [use_count obj].
  destruct (n <=? 1)%nat.
  - by rewrite delete_insert_id.
  - by rewrite insert_insert_eq.
Qed.

(** X8. Destroying the two handles of a channel in use, in either
    order, leaves the heap as it was before [create_channel]: the shared
    state is freed by the second destructor and not before. After the
    first one the state is still there, closed, with one owner, and the
    handle that is left reads it as closed. *)
Theorem last_handle_frees (h0 : Heap T) rx tx (h1 : Heap T)
    (ops : list (op T)) (es : list (event T)) (h : Heap T) :
  create_channel dflt Size h0 = Done (rx, tx, h1) →
  run moved rx tx ops h1 = Done (es, h) →
  ∃ p d half,
    shared_state (Some p) h = Some d ∧
    half !! p = Some (mkShared 1 (set_open false d)) ∧
    ReceiverChannel.dtor rx h = Done (tt, half) ∧
    SenderChannel.dtor tx h = Done (tt, half) ∧
    SenderChannel.is_open tx half = Done (false, half) ∧
    ReceiverChannel.is_open rx half = Done (false, half) ∧
    SenderChannel.dtor tx half = Done (tt, h0) ∧
    ReceiverChannel.dtor rx half = Done (tt, h0).
Proof.
  intros Hc Hrun.
  destruct (run_created h0 rx tx h1 ops Hc) as (p & Hb & Hfree & _ & Hrun').
  rewrite Hrun' in Hrun.
  destruct (run_body moved ops (Data_init dflt Size)) as [[es' d]| |];
    cbn in Hrun; [|done|done].
  injection Hrun as <- <-.
  pose proof Hb as [Hrx Htx].
  set (half := <[p := mkShared 1 (set_open false d)]> h0).
  assert (half !! p = Some (mkShared 1 (set_open false d))) as Hhalf
    by apply lookup_insert_eq.
  exists p, d, half.
  split; [unfold shared_state; cbn; by rewrite lookup_insert_eq|].
  split; [done|].
  destruct (dtor_live p rx tx _ (mkShared 2 d) Hb (lookup_insert_eq h0 p _))
    as [-> ->].
  destruct (dtor_live p rx tx half _ Hb Hhalf) as [-> ->].
  destruct (is_open_bound p rx tx half _ Hb Hhalf) as [-> ->].
  cbn [obj]. unfold half.
  rewrite (release_closed p h0 d 2 Hfree).
  rewrite (release_closed p h0 (set_open false d) 1 Hfree).
  done.
Qed.

(** X9. [create_channel] and the calls on its two handles leave every
    other object of the heap as it is: the new state is at an address
    that was free, and nothing else is written, so that channels do not
    interfere. *)
Theorem other_channels_untouched (h0 : Heap T) rx tx (h1 : Heap T)
    (ops : list (op T)) (es : list (event T)) (h : Heap T) :
  create_channel dflt Size h0 = Done (rx, tx, h1) →
  run moved rx tx ops h1 = Done (es, h) →
  ∃ p, bound p rx tx ∧ h0 !! p = None ∧
    ∀ l, l ≠ p → h1 !! l = h0 !! l ∧ h !! l = h0 !! l.
Proof.
  intros Hc Hrun.
  destruct (run_created h0 rx tx h1 ops Hc) as (p & Hb & Hfree & -> & Hrun').
  rewrite Hrun' in Hrun.
  destruct (run_body moved ops (Data_init dflt Size)) as [[es' d]| |];
    cbn in Hrun; [|done|done].
  injection Hrun as <- <-.
  exists p. split; [done|]. split; [done|].
  intros l Hne. by rewrite !lookup_insert_ne.
Qed.

(** X10. After a [close] on a channel in use, [try_receive] returns
    empty even when values are waiting, while the blocking [receive]
    still delivers the oldest of them. *)
Theorem closed_channel_drains_by_receive (h0 : Heap T) rx tx (h1 : Heap T)
    (ops : list (op T)) (es : list (event T)) (h : Heap T) (v : T) :
  create_channel dflt Size h0 = Done (rx, tx, h1) →
  run moved rx tx ops h1 = Done (es, h) →
  existsb is_close ops = true →
  sent es !! length (received es) = Some v →
  ReceiverChannel.try_receive moved rx h = Done (None, h) ∧
  ∃ h', ReceiverChannel.receive moved rx h = Done (v, h').
Proof using Size_pos Size_int.
  intros Hc Hrun Hcl Hv.
  destruct (reach_history h0 rx tx h1 ops es h Hc Hrun)
    as (p & d & q & Hb & _ & _ & Hp & Hring & Hq & Ho & _).
  rewrite Hcl in Ho. cbn in Ho.
  split.
  - apply (try_receive_closed moved p rx tx h (mkShared 2 d)); [done..|].
    by left.
  - destruct (receive_spec h0 rx tx h1 ops es h Hc Hrun)
      as (p' & d' & _ & _ & _ & _ & _ & Hrecv).
    destruct (Hrecv v Hv) as [_ ->]. by eexists.
Qed.
End history.

(** ** The calls that do not wait *)

Section never_waiting.
Context {T : Type} (moved : T → T).

Lemma with_internal_never_waits {A : Type} (p : option ptr)
    (body : Data T → outcome (A * Data T)) (h : Heap T) :
  (∀ d, body d ≠ Blocks) → with_internal p body h ≠ Blocks.
Proof.
  intros Hbody. unfold with_internal.
  destruct p as [l|]; [|done]. destruct (h !! l) as [sh|]; [|done].
  specialize (Hbody (obj sh)).
  by destruct (body (obj sh)) as [[a d']| |].
Qed.

(** X11. Whatever the handle and whatever the heap, [try_send],
    [try_receive], [is_open], [close] and the destructors never wait:
    none of them ends in [Blocks]. *)
Theorem non_blocking_calls_never_wait rx tx (h : Heap T) (v : T) :
  SenderChannel.try_send tx v h ≠ Blocks ∧
  ReceiverChannel.try_receive moved rx h ≠ Blocks ∧
  SenderChannel.is_open tx h ≠ Blocks ∧
  ReceiverChannel.is_open rx h ≠ Blocks ∧
  SenderChannel.close tx h ≠ Blocks ∧
  ReceiverChannel.close rx h ≠ Blocks ∧
  SenderChannel.dtor tx h ≠ Blocks ∧
  ReceiverChannel.dtor rx h ≠ Blocks.
Proof.
  assert (SenderChannel.close tx h ≠ Blocks) as Hct.
  { unfold SenderChannel.close.
    destruct (SenderChannel.internal tx); [|done].
    by apply with_internal_never_waits. }
  assert (ReceiverChannel.close rx h ≠ Blocks) as Hcr.
  { unfold ReceiverChannel.close.
    destruct (ReceiverChannel.internal rx); [|done].
    by apply with_internal_never_waits. }
  repeat split; try done.
  - apply with_internal_never_waits. intros d.
    unfold SenderChannel.try_send_body, SenderChannel.writeTail,
      counting_semaphore.try_acquire, counting_semaphore.release,
      subscript, rem.
    cbn. repeat (case_match; cbn; try done).
  - apply with_internal_never_waits. intros d.
    unfold ReceiverChannel.try_receive_body, ReceiverChannel.getHead,
      counting_semaphore.try_acquire, subscript, rem.
    cbn. repeat (case_match; cbn; try done).
  - by apply with_internal_never_waits.
  - by apply with_internal_never_waits.
  - unfold SenderChannel.dtor.
    by destruct (SenderChannel.close tx h) as [[[] h']| |].
  - unfold ReceiverChannel.dtor.
    by destruct (ReceiverChannel.close rx h) as [[[] h']| |].
Qed.
End never_waiting.

(** ** A channel without slots *)

Section no_slots.
Context {T : Type} (moved : T → T) (dflt : T).

(** With both counters at zero no call transfers a value, and none
    touches the buffer or an index: calls are refused, find nothing,
    wait, or clear the flag. *)
Lemma run_body_no_slots (ops : list (op T)) (d : Data T) :
  read d ≤ 0 → write d ≤ 0 →
  match run_body moved ops d with
  | Done (es, d') =>
      sent es = [] ∧ received es = [] ∧ d' = set_open (open d') d
  | Blocks => True
  | Undefined => False
  end.
Proof.
  revert d. induction ops as [|o ops IH]; intros d Hr Hw; cbn [run_body].
  - cbn. by destruct d.
  - assert (step_body moved o d = Blocks ∨
            ∃ e b, step_body moved o d = Done (e, set_open b d) ∧
                   sent [e] = [] ∧ received [e] = []) as Hcases.
    { assert (set_open (open d) d = d) as Hid by (by destruct d).
      destruct o as [v|v| | | | ]; cbn [step_body].
      - left. by rewrite send_body_blocks.
      - right. exists (Refused v), (open d).
        rewrite try_send_body_refuses, Hid by (by right). done.
      - left. by rewrite receive_body_blocks.
      - right. exists Nothing, (open d).
        rewrite try_receive_body_empty, Hid by (by right). done.
      - right. by exists Closed, false.
      - right. by exists Closed, false. }
    destruct Hcases as [->|(e & b & -> & Hse & Hre)]; [done|].
    specialize (IH (set_open b d) Hr Hw).
    cbn [mbind outcome_bind].
    destruct (run_body moved ops (set_open b d)) as [[es d']| |];
      [|done|done].
    destruct IH as (H1 & H2 & H3).
    change (sent (e :: es) = [] ∧ received (e :: es) = [] ∧
            d' = set_open (open d') d).
    rewrite sent_cons, received_cons, Hse, Hre, H1, H2.
    split; [done|]. split; [done|]. by rewrite H3.
Qed.

(** X12. A channel created with [Size = 0] is well defined and useless:
    no sequence of calls on it runs into undefined behaviour, in
    particular the remainder by [buffer.size()] is never computed, and no
    call that completes enqueues or delivers a value. *)
Theorem zero_capacity_channel (h0 : Heap T) rx tx (h1 : Heap T)
    (ops : list (op T)) :
  create_channel dflt 0 h0 = Done (rx, tx, h1) →
  run moved rx tx ops h1 ≠ Undefined ∧
  ∀ (es : list (event T)) (h : Heap T),
    run moved rx tx ops h1 = Done (es, h) →
    sent es = [] ∧ received es = [] ∧
    ∃ d, shared_state (ReceiverChannel.internal rx) h = Some d ∧
         buffer d = [] ∧ read d = 0 ∧ write d = 0.
Proof.
  intros Hc.
  destruct (run_created moved dflt 0 h0 rx tx h1 ops Hc)
    as (p & [Hrx _] & _ & _ & ->).
  pose proof (run_body_no_slots ops (Data_init dflt 0)
                ltac:(cbn; lia) ltac:(cbn; lia)) as Hrun.
  destruct (run_body moved ops (Data_init dflt 0)) as [[es d]| |];
    cbn; [|done|done].
  destruct Hrun as (Hse & Hre & Hd).
  split; [done|]. intros es' h [= <- <-].
  split; [done|]. split; [done|].
  exists d. rewrite Hrx. unfold shared_state. cbn.
  rewrite lookup_insert_eq. cbn. split; [done|].
  rewrite Hd. done.
Qed.
End no_slots.

(** ** The further properties at work *)

Module Demo2Runs.

Lemma run_wedge :
  run moved_int Demo.rx Demo.tx Demo2.wedge_ops
    (Demo.heap_of Demo.fresh_state) =
    Done ([Sent 1; Got 1; Sent 2; Got 2], Demo.heap_of Demo2.wedged).
Proof. reflexivity. Defined.

Lemma run_later :
  run moved_int Demo.rx Demo.tx Demo2.later_ops
    (Demo.heap_of Demo2.wedged) =
    Done ([Refused 3; Closed; Nothing], Demo.heap_of Demo2.wedged_closed).
Proof. reflexivity. Defined.

Lemma created_second :
  create_channel (0 : Z) 2 (Demo.heap_of Demo.after_send) =
    Done (Demo2.rx2, Demo2.tx2, Demo2.beside_first Demo.fresh_state).
Proof. reflexivity. Defined.

Lemma run_second :
  run moved_int Demo2.rx2 Demo2.tx2 [Send 4; CloseRx]
    (Demo2.beside_first Demo.fresh_state) =
    Done ([Sent 4; Closed],
          Demo2.beside_first (mkData false 0 1 [4; 0] 1 1)).
Proof. reflexivity. Defined.

Lemma created_no_slots :
  create_channel (0 : Z) 0 ∅ =
    Done (Demo.rx, Demo.tx, Demo.heap_of Demo2.no_slots).
Proof. reflexivity. Defined.

Lemma run_no_slots :
  run moved_int Demo.rx Demo.tx [TrySend 1; TryReceive; CloseRx]
    (Demo.heap_of Demo2.no_slots) =
    Done ([Refused 1; Nothing; Closed],
          Demo.heap_of (mkData false 0 0 [] 0 0)).
Proof. reflexivity. Defined.

End Demo2Runs.

Lemma send_spec_witness :
  ∃ p d, bound p Demo.rx Demo.tx ∧
    shared_state (Some p) (Demo.heap_of Demo.after_send) = Some d ∧
    (write d = 0 →
       SenderChannel.send Demo.tx 8 (Demo.heap_of Demo.after_send) = Blocks) ∧
    (write d ≠ 0 →
       0 ≤ tail d < size (buffer d) ∧
       SenderChannel.send Demo.tx 8 (Demo.heap_of Demo.after_send) =
         Done (tt,
               store p {| open := open d;
                          head := head d;
                          tail := (tail d + 1) mod 2;
                          buffer := <[Z.to_nat (tail d) := 8]> (buffer d);
                          read := read d + 1;
                          write := write d - 1 |}
                 (Demo.heap_of Demo.after_send))).
Proof.
  exact (send_spec moved_int 0 2 DemoRuns.Size_pos DemoRuns.Size_int
           ∅ Demo.rx Demo.tx _ [TrySend 7] _ _ 8
           DemoRuns.created DemoRuns.run_send).
Defined.

Lemma receive_spec_witness :
  ∃ p d, bound p Demo.rx Demo.tx ∧
    shared_state (Some p) (Demo.heap_of Demo.after_send) = Some d ∧
    read d = pending [Sent 7] ∧
    (pending [Sent 7] = 0 →
       ReceiverChannel.receive moved_int Demo.rx
         (Demo.heap_of Demo.after_send) = Blocks) ∧
    (pending [Sent 7] ≠ 0 →
       is_Some (sent [Sent 7] !! length (received [Sent 7 : event Z]))) ∧
    (∀ v, sent [Sent 7] !! length (received [Sent 7 : event Z]) = Some v →
       buffer d !! Z.to_nat (head d) = Some v ∧
       ReceiverChannel.receive moved_int Demo.rx
         (Demo.heap_of Demo.after_send) =
         Done (v,
               store p {| open := open d;
                          head := (head d + 1) mod 2;
                          tail := tail d;
                          buffer :=
                            <[Z.to_nat (head d) := moved_int v]> (buffer d);
                          read := read d - 1;
                          write := write d + 1 |}
                 (Demo.heap_of Demo.after_send))).
Proof.
  exact (receive_spec moved_int 0 2 DemoRuns.Size_pos DemoRuns.Size_int
           ∅ Demo.rx Demo.tx _ [TrySend 7] _ _
           DemoRuns.created DemoRuns.run_send).
Defined.

Lemma counters_from_history_witness :
  ∃ d, shared_state (ReceiverChannel.internal Demo.rx)
         (Demo.heap_of Demo2.wedged) = Some d ∧
    read d = 0 ∧ write d = 2 - 0 - 2.
Proof.
  destruct (counters_from_history moved_int 0 2
              DemoRuns.Size_pos DemoRuns.Size_int
              ∅ Demo.rx Demo.tx _ Demo2.wedge_ops _ _
              DemoRuns.created Demo2Runs.run_wedge)
    as (d & Hd & Hr & Hw & _).
  exists d. split; [exact Hd|]. split; [exact Hr|exact Hw].
Defined.

Lemma send_waits_iff_no_slot_witness :
  (SenderChannel.send Demo.tx 9 (Demo.heap_of Demo.after_close) = Blocks ∧
   SenderChannel.try_send Demo.tx 9 (Demo.heap_of Demo.after_close) =
     Done (false, Demo.heap_of Demo.after_close)) ∧
  (SenderChannel.send Demo.tx 9 (Demo.heap_of Demo2.wedged) = Blocks ∧
   SenderChannel.try_send Demo.tx 9 (Demo.heap_of Demo2.wedged) =
     Done (false, Demo.heap_of Demo2.wedged)) ∧
  ∃ h', SenderChannel.send Demo.tx 9 (Demo.heap_of Demo.after_send) =
          Done (tt, h').
Proof.
  split; [|split].
  - exact (proj1 (send_waits_iff_no_slot moved_int 0 2
                    DemoRuns.Size_pos DemoRuns.Size_int
                    ∅ Demo.rx Demo.tx _ _ _ _ 9
                    DemoRuns.created DemoRuns.run_close) eq_refl).
  - exact (proj1 (send_waits_iff_no_slot moved_int 0 2
                    DemoRuns.Size_pos DemoRuns.Size_int
                    ∅ Demo.rx Demo.tx _ _ _ _ 9
                    DemoRuns.created Demo2Runs.run_wedge) eq_refl).
  - refine (proj2 (send_waits_iff_no_slot moved_int 0 2
                     DemoRuns.Size_pos DemoRuns.Size_int
                     ∅ Demo.rx Demo.tx _ _ _ _ 9
                     DemoRuns.created DemoRuns.run_send) _).
    discriminate.
Defined.

Lemma wedged_forever_witness :
  sent [Refused 3; Closed; Nothing : event Z] = [] ∧
  received [Refused 3; Closed; Nothing : event Z] = [].
Proof.
  exact (wedged_forever moved_int 0 2 DemoRuns.Size_pos DemoRuns.Size_int
           ∅ Demo.rx Demo.tx _ Demo2.wedge_ops Demo2.later_ops _ _ _ _
           DemoRuns.created Demo2Runs.run_wedge eq_refl Demo2Runs.run_later).
Defined.

Lemma blocking_program_witness :
  (∃ es h, run moved_int Demo.rx Demo.tx Demo2.pipeline
             (Demo.heap_of Demo.fresh_state) = Done (es, h) ∧
           sent es = [7; 8; 9] ∧ received es = [7; 8; 9]) ∧
  run moved_int Demo.rx Demo.tx Demo2.overfull
    (Demo.heap_of Demo.fresh_state) = Blocks.
Proof.
  split.
  - exact (blocking_program moved_int 0 2 DemoRuns.Size_pos DemoRuns.Size_int
             ∅ Demo.rx Demo.tx _ Demo2.pipeline DemoRuns.created eq_refl).
  - exact (blocking_program moved_int 0 2 DemoRuns.Size_pos DemoRuns.Size_int
             ∅ Demo.rx Demo.tx _ Demo2.overfull DemoRuns.created eq_refl).
Defined.

Lemma is_open_iff_no_close_witness :
  (ReceiverChannel.is_open Demo.rx (Demo.heap_of Demo.after_exchange) =
     Done (true, Demo.heap_of Demo.after_exchange) ∧
   SenderChannel.is_open Demo.tx (Demo.heap_of Demo.after_exchange) =
     Done (true, Demo.heap_of Demo.after_exchange)) ∧
  (ReceiverChannel.is_open Demo.rx (Demo.heap_of Demo.after_close) =
     Done (false, Demo.heap_of Demo.after_close) ∧
   SenderChannel.is_open Demo.tx (Demo.heap_of Demo.after_close) =
     Done (false, Demo.heap_of Demo.after_close)).
Proof.
  split.
  - exact (is_open_iff_no_close moved_int 0 2
             DemoRuns.Size_pos DemoRuns.Size_int
             ∅ Demo.rx Demo.tx _ _ _ _ DemoRuns.created DemoRuns.run_exchange).
  - exact (is_open_iff_no_close moved_int 0 2
             DemoRuns.Size_pos DemoRuns.Size_int
             ∅ Demo.rx Demo.tx _ _ _ _ DemoRuns.created DemoRuns.run_close).
Defined.

Lemma last_handle_frees_witness :
  ∃ p d half,
    shared_state (Some p) (Demo.heap_of Demo.after_send) = Some d ∧
    half !! p = Some (mkShared 1 (set_open false d)) ∧
    ReceiverChannel.dtor Demo.rx (Demo.heap_of Demo.after_send) =
      Done (tt, half) ∧
    SenderChannel.dtor Demo.tx (Demo.heap_of Demo.after_send) =
      Done (tt, half) ∧
    SenderChannel.is_open Demo.tx half = Done (false, half) ∧
    ReceiverChannel.is_open Demo.rx half = Done (false, half) ∧
    SenderChannel.dtor Demo.tx half = Done (tt, ∅) ∧
    ReceiverChannel.dtor Demo.rx half = Done (tt, ∅).
Proof.
  exact (last_handle_frees moved_int 0 2 ∅ Demo.rx Demo.tx _ _ _ _
           DemoRuns.created DemoRuns.run_send).
Defined.

Lemma other_channels_untouched_witness :
  ∃ p, bound p Demo2.rx2 Demo2.tx2 ∧
    Demo.heap_of Demo.after_send !! p = None ∧
    ∀ l, l ≠ p →
      Demo2.beside_first Demo.fresh_state !! l =
        Demo.heap_of Demo.after_send !! l ∧
      Demo2.beside_first (mkData false 0 1 [4; 0] 1 1) !! l =
        Demo.heap_of Demo.after_send !! l.
Proof.
  exact (other_channels_untouched moved_int 0 2
           (Demo.heap_of Demo.after_send) Demo2.rx2 Demo2.tx2 _ _ _ _
           Demo2Runs.created_second Demo2Runs.run_second).
Defined.

Lemma closed_channel_drains_by_receive_witness :
  ReceiverChannel.try_receive moved_int Demo.rx
    (Demo.heap_of Demo.after_close) =
    Done (None, Demo.heap_of Demo.after_close) ∧
  ∃ h', ReceiverChannel.receive moved_int Demo.rx
          (Demo.heap_of Demo.after_close) = Done (7, h').
Proof.
  exact (closed_channel_drains_by_receive moved_int 0 2
           DemoRuns.Size_pos DemoRuns.Size_int
           ∅ Demo.rx Demo.tx _ _ _ _ 7
           DemoRuns.created DemoRuns.run_close eq_refl eq_refl).
Defined.

Lemma zero_capacity_channel_witness :
  run moved_int Demo.rx Demo.tx [TrySend 1; TryReceive; CloseRx]
    (Demo.heap_of Demo2.no_slots) ≠ Undefined ∧
  sent [Refused 1; Nothing; Closed : event Z] = [] ∧
  received [Refused 1; Nothing; Closed : event Z] = [].
Proof.
  destruct (zero_capacity_channel moved_int 0 ∅ Demo.rx Demo.tx _
              [TrySend 1; TryReceive; CloseRx] Demo2Runs.created_no_slots)
    as [Hdef Hruns].
  split; [exact Hdef|].
  destruct (Hruns _ _ Demo2Runs.run_no_slots) as (Hs & Hr & _).
  split; [exact Hs|exact Hr].
Defined.
